(** * The dashboard event bus, its streaming handler and its server start-up

    A shallow embedding of [src/Research/dashboard.py]: the [EventBus]
    class (history buffer, subscriber registry, fan-out), the HTTP handler
    ([do_GET], [_serve_sse]) and the module-level [start] function,
    followed by the properties the specification states about them. *)

From Stdlib Require Import ZArith Lia String.
From Stdlib Require DecimalString DecimalN.
From stdpp Require Import base decidable option list gmap strings pretty sorting.

Local Open Scope string_scope.
Set Warnings "-register-all,-clear-no-such-hyp".

(** ** Python outcomes: a call returns, raises, or waits forever *)

Module Py.

(** The exception classes the module raises or catches. *)
Inductive exn :=
| TypeError            (* json: "keys must be str, int, float, bool or None" *)
| StrError             (* whatever a user-defined [__str__] raises *)
| ValueError           (* list.remove(x): x not in list; int text too long *)
| RecursionError       (* json: nesting deeper than the interpreter allows *)
| OverflowError        (* bind(): port must be 0-65535 *)
| Full                 (* queue.Full *)
| Empty                (* queue.Empty *)
| BrokenPipeError
| ConnectionResetError
| OSError
| OtherError (name : string).

Global Instance exn_eq_dec : EqDecision exn.
Proof. solve_decision. Defined.

(** Outcome of a call: a value, an exception, or a blocking wait that is
    never satisfied. *)
Inductive result (A : Type) :=
| Ok (a : A)
| Raise (e : exn)
| Blocked.
Global Arguments Ok {A} a.
Global Arguments Raise {A} e.
Global Arguments Blocked {A}.

Global Instance result_eq_dec {A} `{EqDecision A} : EqDecision (result A).
Proof. solve_decision. Defined.

Definition rbind {A B} (r : result A) (k : A → result B) : result B :=
  match r with
  | Ok a => k a
  | Raise e => Raise e
  | Blocked => Blocked
  end.

(** Stateful code: the state reached is kept when an exception is raised
    (Python undoes nothing). *)
Definition M (S A : Type) : Type := S → result A * S.

Definition ret {S A} (a : A) : M S A := λ s, (Ok a, s).

Definition bind {S A B} (m : M S A) (k : A → M S B) : M S B :=
  λ s, match m s with
       | (Ok a, s') => k a s'
       | (Raise e, s') => (Raise e, s')
       | (Blocked, s') => (Blocked, s')
       end.

Definition raise {S A} (e : exn) : M S A := λ s, (Raise e, s).
Definition block {S A} : M S A := λ s, (Blocked, s).
Definition lift {S A} (r : result A) : M S A := λ s, (r, s).
Definition gets {S A} (f : S → A) : M S A := λ s, (Ok (f s), s).
Definition modify {S} (f : S → S) : M S unit := λ s, (Ok tt, f s).

(** [try: m  except: handler]; the handler re-raises what it does not
    catch. *)
Definition try_except {S A} (m : M S A) (handler : exn → M S A) : M S A :=
  λ s, match m s with
       | (Raise e, s') => handler e s'
       | r => r
       end.

(** [for x in l: body x] *)
Fixpoint for_each {S A} (l : list A) (body : A → M S unit) : M S unit :=
  match l with
  | [] => ret tt
  | x :: l' => bind (body x) (λ _, for_each l' body)
  end.

(** The longest decimal text an int converts to or from (the default of
    [sys.set_int_max_str_digits]; interpreters that predate the limit
    convert longer ones too). *)
Definition int_max_str_digits : nat := 4300.

(** The least number whose text is longer than that. *)
Definition int_str_limit : Z := 10 ^ Z.of_nat int_max_str_digits.
Global Arguments int_str_limit : simpl never.

(** [repr(z)] of an int: its decimal text, ValueError when that has more
    than [int_max_str_digits] digits. *)
Definition int_repr (z : Z) : result string :=
  if bool_decide (int_str_limit ≤ Z.abs z)%Z
  then Raise ValueError
  else Ok (pretty z).

(** A C function of the interpreter entering one more level of recursion:
    RecursionError when no level is left. *)
Definition enter {A} (room : nat) (k : nat → result A) : result A :=
  match room with
  | 0 => Raise RecursionError
  | S room' => k room'
  end.

End Py.
Import Py.

Declare Scope py_scope.
Delimit Scope py_scope with py.
Notation "x <~ m ;; k" := (bind m (λ x, k))
  (at level 100, m at next level, k at level 200, right associativity) : py_scope.
Notation "m ;;; k" := (bind m (λ _, k))
  (at level 100, k at level 200, right associativity) : py_scope.

(** ** json.dumps(data, default=str) *)

Module Json.

(** A Python value as the encoder distinguishes it.  [PyFloat] carries the
    text the encoder emits for the float; [PyObject] is any object of
    another class, with the outcome of [str(o)] ([None]: [__str__]
    raises).  Values are finite trees, so a payload that contains itself
    is outside this type; a dict is the list of its items in insertion
    order. *)
Inductive pyval :=
| PyNone
| PyBool (b : bool)
| PyInt (z : Z)
| PyFloat (repr : string)
| PyStr (s : string)
| PyList (l : list pyval)
| PyTuple (l : list pyval)
| PyDict (items : list (pyval * pyval))
| PyObject (cls : string) (str_ : option string).

(** The JSON document a serialized text denotes; the stored [data_json]
    is represented by this document.  [JFloat] carries the text of the
    float, [JObj] the members in the order of the text. *)
Inductive json :=
| JNull
| JBool (b : bool)
| JInt (z : Z)
| JFloat (repr : string)
| JStr (s : string)
| JArr (l : list json)
| JObj (members : list (string * json)).

(** Dict keys: str as is; float, bool, None and int are coerced to their
    JSON text; anything else is a TypeError ([default] is not consulted
    for keys, and [skipkeys] is off). *)
Definition encode_key (k : pyval) : result string :=
  match k with
  | PyStr s => Ok s
  | PyFloat r => Ok r
  | PyBool true => Ok "true"
  | PyBool false => Ok "false"
  | PyNone => Ok "null"
  | PyInt z => int_repr z
  | _ => Raise TypeError
  end.

(** [default=str]: an object the encoder does not know is replaced by
    [str(o)], which is then encoded as a string. *)
Definition default_str (str_ : option string) : result json :=
  match str_ with
  | Some s => Ok (JStr s)
  | None => Raise StrError
  end.

(** [json.dumps(o, default=str)], called where the interpreter allows
    [room] more levels of nesting: the encoder enters one level for each
    list, tuple or dict it opens and for each value it has passed to
    [default]. *)
Fixpoint dumps (room : nat) (o : pyval) {struct o} : result json :=
  match o with
  | PyStr s => Ok (JStr s)
  | PyNone => Ok JNull
  | PyBool b => Ok (JBool b)
  | PyInt z => rbind (int_repr z) (λ _, Ok (JInt z))
  | PyFloat r => Ok (JFloat r)
  | PyList l | PyTuple l =>
      enter room (λ room',
        rbind
          ((fix elements (l : list pyval) : result (list json) :=
              match l with
              | [] => Ok []
              | x :: l' =>
                  rbind (dumps room' x) (λ j,
                  rbind (elements l') (λ js, Ok (j :: js)))
              end) l)
          (λ js, Ok (JArr js)))
  | PyDict items =>
      enter room (λ room',
        rbind
          ((fix members (l : list (pyval * pyval)) : result (list (string * json)) :=
              match l with
              | [] => Ok []
              | (k, v) :: l' =>
                  rbind (encode_key k) (λ ks,
                  rbind (dumps room' v) (λ j,
                  rbind (members l') (λ ms, Ok ((ks, j) :: ms))))
              end) items)
          (λ ms, Ok (JObj ms)))
  | PyObject _ str_ =>
      rbind (default_str str_) (λ j, enter room (λ _, Ok j))
  end.

(** The payloads [dumps] accepts: every dict key, at every depth, is a
    str, float, bool, None or int, [str] succeeds on every foreign
    object, every int (key or value) has a text within the digit limit,
    and the nesting stays within [room]. *)
Definition int_ok (z : Z) : bool :=
  negb (bool_decide (int_str_limit ≤ Z.abs z)%Z).

Definition key_ok (k : pyval) : bool :=
  match k with
  | PyStr _ | PyFloat _ | PyBool _ | PyNone => true
  | PyInt z => int_ok z
  | _ => false
  end.

Fixpoint serializable (room : nat) (o : pyval) {struct o} : bool :=
  match o with
  | PyInt z => int_ok z
  | PyList l | PyTuple l =>
      match room with
      | 0 => false
      | S room' =>
          (fix all (l : list pyval) : bool :=
             match l with
             | [] => true
             | x :: l' => serializable room' x && all l'
             end) l
      end
  | PyDict items =>
      match room with
      | 0 => false
      | S room' =>
          (fix all (l : list (pyval * pyval)) : bool :=
             match l with
             | [] => true
             | (k, v) :: l' => key_ok k && serializable room' v && all l'
             end) items
      end
  | PyObject _ None => false
  | PyObject _ (Some _) => match room with 0 => false | S _ => true end
  | _ => true
  end.

(** [d[k] = v] on a dict, which keeps insertion order: a key that is
    already there keeps its place and takes the new value. *)
Fixpoint dict_set (k : string) (v : pyval) (d : list (pyval * pyval))
  : list (pyval * pyval) :=
  match d with
  | [] => [(PyStr k, v)]
  | (PyStr k', v') :: d' =>
      if String.eqb k' k then (PyStr k', v) :: d'
      else (PyStr k', v') :: dict_set k v d'
  | kv :: d' => kv :: dict_set k v d'
  end.

(** [json.loads(text)] on the text of a stored document, where the
    interpreter allows [room] more levels of nesting: the scanner enters
    one level for each array or object it opens, converts the text of an
    int under the digit limit, and puts the members of an object into a
    dict one after the other, so that of two members with one key the
    later value stays. *)
Fixpoint loads (room : nat) (j : json) {struct j} : result pyval :=
  match j with
  | JNull => Ok PyNone
  | JBool b => Ok (PyBool b)
  | JInt z =>
      if bool_decide (int_str_limit ≤ Z.abs z)%Z then Raise ValueError
      else Ok (PyInt z)
  | JFloat r => Ok (PyFloat r)
  | JStr s => Ok (PyStr s)
  | JArr l =>
      enter room (λ room',
        rbind
          ((fix elements (l : list json) : result (list pyval) :=
              match l with
              | [] => Ok []
              | x :: l' =>
                  rbind (loads room' x) (λ o,
                  rbind (elements l') (λ os, Ok (o :: os)))
              end) l)
          (λ os, Ok (PyList os)))
  | JObj members =>
      enter room (λ room',
        rbind
          ((fix pairs (l : list (string * json)) (d : list (pyval * pyval))
              : result (list (pyval * pyval)) :=
              match l with
              | [] => Ok d
              | (k, v) :: l' =>
                  rbind (loads room' v) (λ o, pairs l' (dict_set k o d))
              end) members [])
          (λ d, Ok (PyDict d)))
  end.

(** What [loads] returns: dicts keyed by str, lists, and the scalars of
    JSON; no tuple and no object of another class. *)
Fixpoint native (o : pyval) : bool :=
  match o with
  | PyList l =>
      (fix all (l : list pyval) : bool :=
         match l with
         | [] => true
         | x :: l' => native x && all l'
         end) l
  | PyDict items =>
      (fix all (l : list (pyval * pyval)) : bool :=
         match l with
         | [] => true
         | (PyStr _, v) :: l' => native v && all l'
         | _ => false
         end) items
  | PyTuple _ | PyObject _ _ => false
  | _ => true
  end.

End Json.
Import Json.

(** ** EventBus *)

Module Bus.

Definition _HISTORY_SIZE : nat := 200.

(** A history record, [(id, type, data_json)]. *)
Definition event : Type := Z * string * json.
Definition eid (e : event) : Z := e.1.1.

(** A [queue.Queue]: its capacity and its pending items, oldest first. *)
Record Queue := mkQueue { maxsize : Z; items : list event }.

(** Queue objects are shared between the bus and the handler that drains
    them, so they live in a store and are named by reference. *)
Definition qref := nat.

Record EventBus := mkBus {
  _subscribers : list qref;
  _history : list event;
  _next_id : Z
}.

Record World := mkWorld {
  _bus : EventBus;
  queues : gmap nat Queue
}.

(** [EventBus.__init__] *)
Definition EventBus_init : EventBus :=
  {| _subscribers := []; _history := []; _next_id := 1 |}.

Definition initial : World := {| _bus := EventBus_init; queues := ∅ |}.

Definition set_bus (f : EventBus → EventBus) : M World unit :=
  modify (λ w, {| _bus := f (_bus w); queues := queues w |}).

(** *** queue.Queue *)

(** [Queue.full()]: a capacity of zero or less means unbounded. *)
Definition full (q : Queue) : bool :=
  bool_decide (0 < maxsize q ∧ maxsize q ≤ Z.of_nat (length (items q)))%Z.

Definition enqueue (x : event) (q : Queue) : Queue :=
  {| maxsize := maxsize q; items := items q ++ [x] |}.

(** [queue.Queue(maxsize=n)]: a new object, distinct from all others. *)
Definition Queue_new (n : Z) : M World qref :=
  λ w, let r := fresh (dom (queues w)) in
       (Ok r, {| _bus := _bus w;
                 queues := <[r := {| maxsize := n; items := [] |}]> (queues w) |}).

(** The queue a reference names.  A reference always names a live object;
    the last case cannot arise from references handed out by
    [Queue_new]. *)
Definition deref (r : qref) : M World Queue :=
  λ w, match queues w !! r with
       | Some q => (Ok q, w)
       | None => (Raise (OtherError "ReferenceError"), w)
       end.

Definition store (r : qref) (q : Queue) : M World unit :=
  modify (λ w, {| _bus := _bus w; queues := <[r := q]> (queues w) |}).

(** [q.put(x)]: waits while the queue is full. *)
Definition put (r : qref) (x : event) : M World unit :=
  (q <~ deref r;;
   if full q then block else store r (enqueue x q))%py.

(** [q.put_nowait(x)]: raises [queue.Full] instead of waiting. *)
Definition put_nowait (r : qref) (x : event) : M World unit :=
  (q <~ deref r;;
   if full q then raise Full else store r (enqueue x q))%py.

(** [q.get(timeout=15)]: the oldest item, or [queue.Empty] when none
    arrives within the timeout. *)
Definition get (r : qref) : M World event :=
  (q <~ deref r;;
   match items q with
   | [] => raise Empty
   | x :: rest => store r {| maxsize := maxsize q; items := rest |};;; ret x
   end)%py.

(** *** The three methods.  Each body runs under [self._lock], so it is
    one atomic step on the shared world. *)

Definition subscribe (last_event_id : Z) : M World qref :=
  (q <~ Queue_new 512;;
   history <~ gets (λ w, _history (_bus w));;
   for_each history (λ e,
     if bool_decide (eid e > last_event_id)%Z then put q e else ret tt);;;
   set_bus (λ b, {| _subscribers := _subscribers b ++ [q];
                    _history := _history b;
                    _next_id := _next_id b |});;;
   ret q)%py.

(** [list.remove(x)]: drops the first occurrence; [None] stands for the
    ValueError raised when there is none. *)
Fixpoint list_remove (x : qref) (l : list qref) : option (list qref) :=
  match l with
  | [] => None
  | y :: l' => if decide (y = x) then Some l'
               else cons y <$> list_remove x l'
  end.

Definition unsubscribe (q : qref) : M World unit :=
  try_except
    (subs <~ gets (λ w, _subscribers (_bus w));;
     match list_remove q subs with
     | Some subs' =>
         set_bus (λ b, {| _subscribers := subs';
                          _history := _history b;
                          _next_id := _next_id b |})
     | None => raise ValueError
     end)%py
    (λ e, match e with ValueError => ret tt | _ => raise e end).

(** [history[-_HISTORY_SIZE:]] *)
Definition last_n {A} (n : nat) (l : list A) : list A :=
  drop (length l - n) l.

(** [room]: the levels of nesting the interpreter still allows where the
    producer calls. *)
Definition push (room : nat) (event_type : string) (data : pyval) : M World unit :=
  (data_json <~ lift (dumps room data);;
   id <~ gets (λ w, _next_id (_bus w));;
   set_bus (λ b, {| _subscribers := _subscribers b;
                    _history := _history b;
                    _next_id := (id + 1)%Z |});;;
   set_bus (λ b, {| _subscribers := _subscribers b;
                    _history := _history b ++ [(id, event_type, data_json)];
                    _next_id := _next_id b |});;;
   set_bus (λ b, {| _subscribers := _subscribers b;
                    _history :=
                      if bool_decide (_HISTORY_SIZE < length (_history b))
                      then last_n _HISTORY_SIZE (_history b)
                      else _history b;
                    _next_id := _next_id b |});;;
   subs <~ gets (λ w, _subscribers (_bus w));;
   for_each subs (λ q,
     try_except (put_nowait q (id, event_type, data_json))
                (λ e, match e with Full => ret tt | _ => raise e end)))%py.

(** [push_event], the module-level entry point, on the global [_bus]. *)
Definition push_event (room : nat) (event_type : string) (data : pyval)
  : M World unit :=
  push room event_type data.

End Bus.
Import Bus.

(** ** Interleavings: what the threads of the process may do to the bus *)

Module Threads.

(** One atomic action on the bus: a producer publishes, a client connects
    or disconnects, a delivery loop takes the next item of its queue. *)
Inductive call :=
| CallPush (room : nat) (event_type : string) (data : pyval)
| CallSubscribe (last_event_id : Z)
| CallUnsubscribe (q : qref)
| CallGet (q : qref).

Definition exec (c : call) (w : World) : World :=
  match c with
  | CallPush room t d => (push_event room t d w).2
  | CallSubscribe k => (subscribe k w).2
  | CallUnsubscribe q => (unsubscribe q w).2
  | CallGet q => (get q w).2
  end.

Definition run (cs : list call) (w : World) : World :=
  foldl (λ w c, exec c w) w cs.

(** The record a publish stamped: the newest entry of the history it
    leaves, when it returns. *)
Definition stamped (room : nat) (event_type : string) (data : pyval) (w : World)
  : option event :=
  match push room event_type data w with
  | (Ok _, w') => last (_history (_bus w'))
  | _ => None
  end.

(** The records stamped along a run, one per publish that returned, in the
    order of the publishes. *)
Fixpoint published (cs : list call) (w : World) : list event :=
  match cs with
  | [] => []
  | c :: cs' =>
      match c with
      | CallPush room t d => option_list (stamped room t d w)
      | _ => []
      end ++ published cs' (exec c w)
  end.

(** The ids handed out along a run. *)
Definition ids_assigned (cs : list call) (w : World) : list Z :=
  eid <$> published cs w.

(** The worlds the process can be in. *)
Definition reachable (w : World) : Prop := ∃ cs, w = run cs initial.

End Threads.
Import Threads.

(** ** The HTTP handler *)

Module Handler.

(** What [do_GET] dispatches to: [_serve_html], [_serve_sse], or
    [send_error(HTTPStatus.NOT_FOUND)]. *)
Inductive response := ServeHtml | ServeSse | NotFound.

Definition do_GET (path : string) : response :=
  if String.eqb path "/" || String.eqb path "/index.html" then ServeHtml
  else if String.prefix "/events" path then ServeSse
  else NotFound.

(** What goes down the wire: an event frame [id: ..\ndata: {"type": ..,
    "data": ..}\n\n] or the comment frame [: keepalive\n\n]. *)
Inductive frame :=
| DataFrame (id : Z) (payload : json)
| KeepaliveFrame.

(** One connection: the shared bus world and what was written to the
    client so far. *)
Record Conn := mkConn { world : World; wfile : list frame }.

Definition on_bus {A} (m : M World A) : M Conn A :=
  λ c, let (r, w') := m (world c) in (r, {| world := w'; wfile := wfile c |}).

(** [self.wfile.write(..); self.wfile.flush()]: the client decides whether
    it succeeds. *)
Inductive write_outcome := Written | WriteFails (e : exn).

Definition write (f : frame) (o : write_outcome) : M Conn unit :=
  match o with
  | Written => modify (λ c, {| world := world c; wfile := wfile c ++ [f] |})
  | WriteFails e => raise e
  end.

Inductive ctl := Continue | Break.

(** [json.dumps({"type": etype, "data": json.loads(edata)})].  No
    [default] is passed here; none is needed, since what [loads] returns
    holds no object of another class. *)
Definition event_payload (room : nat) (e : event) : result json :=
  rbind (loads room e.2) (λ data,
    dumps room (PyDict [(PyStr "type", PyStr e.1.2); (PyStr "data", data)])).

(** The frame [f"id: {eid}\ndata: {payload}\n\n"]; formatting the id is
    an int to text conversion. *)
Definition event_frame (room : nat) (e : event) : result frame :=
  rbind (event_payload room e) (λ payload,
  rbind (int_repr (eid e)) (λ _, Ok (DataFrame (eid e) payload))).

(** The body of [while True], given how the write of this pass ends;
    [room] is the nesting the interpreter allows in the handler's
    thread. *)
Definition body (room : nat) (sub : qref) (o : write_outcome) : M Conn ctl :=
  try_except
    (e <~ on_bus (get sub);;
     f <~ lift (event_frame room e);;
     write f o;;;
     ret Continue)%py
    (λ e, match e with
          | Empty =>
              try_except
                (write KeepaliveFrame o;;; ret Continue)%py
                (λ e', match e' with
                       | BrokenPipeError | ConnectionResetError => ret Break
                       | _ => raise e'
                       end)
          | BrokenPipeError | ConnectionResetError => ret Break
          | _ => raise e
          end).

(** What happens while the connection is open: passes of this handler's
    loop, interleaved with the other threads' actions on the bus. *)
Inductive step :=
| Pass (o : write_outcome)
| Elsewhere (c : call).

(** The loop along a schedule; [None] when the schedule ends with the loop
    still running. *)
Fixpoint loop (room : nat) (sub : qref) (sched : list step)
  : M Conn (option unit) :=
  match sched with
  | [] => ret None
  | Elsewhere c :: sched' =>
      (on_bus (modify (exec c));;; loop room sub sched')%py
  | Pass o :: sched' =>
      (c <~ body room sub o;;
       match c with
       | Break => ret (Some tt)
       | Continue => loop room sub sched'
       end)%py
  end.

(** How a handler stands at the end of a schedule. *)
Inductive served :=
| Serving (sub : qref)          (* still inside the loop *)
| Exited (r : result unit).     (* returned, or raised to the server *)

(** [_serve_sse], from [_bus.subscribe] on; [last_id] is what the request
    parsing produced.  The [finally] clause runs on every way out of the
    loop. *)
Definition _serve_sse (room : nat) (last_id : Z) (sched : list step) (c : Conn)
  : served * Conn :=
  match on_bus (subscribe last_id) c with
  | (Ok sub, c1) =>
      match loop room sub sched c1 with
      | (Ok None, c2) => (Serving sub, c2)
      | (Ok (Some _), c2) =>
          match on_bus (unsubscribe sub) c2 with
          | (Ok _, c3) => (Exited (Ok tt), c3)
          | (r, c3) => (Exited r, c3)
          end
      | (Raise e, c2) =>
          match on_bus (unsubscribe sub) c2 with
          | (Ok _, c3) => (Exited (Raise e), c3)
          | (r, c3) => (Exited r, c3)
          end
      | (Blocked, c2) => (Exited Blocked, c2)
      end
  | (Raise e, c1) => (Exited (Raise e), c1)
  | (Blocked, c1) => (Exited Blocked, c1)
  end.

(** The event stream endpoint as the interface description writes it,
    [GET /events[?last_event_id=N]]: the path [/events], alone or followed
    by a query string.  Kept next to [do_GET] to compare the two. *)
Definition spec_event_stream_endpoint (path : string) : bool :=
  String.eqb path "/events" || String.prefix "/events?" path.

Definition spec_static_page (path : string) : bool :=
  String.eqb path "/" || String.eqb path "/index.html".

End Handler.
Import Handler.

(** ** Server start-up *)

Module Server.

Record Address := mkAddress { host : string; port : Z }.

Global Instance Address_eq_dec : EqDecision Address.
Proof. solve_decision. Defined.

(** The module globals [_server] and [_port], and what the process has
    done to the outside: sockets it listens on, threads running
    [serve_forever], browser timers, and every bind it attempted. *)
Record Process := mkProcess {
  _server : option Address;
  _port : Z;
  listeners : list Address;
  threads : list Address;
  timers : list string;
  bind_log : list Address
}.

Definition unstarted : Process :=
  {| _server := None; _port := 0; listeners := []; threads := [];
     timers := []; bind_log := [] |}.

(** Whether the system refuses a bind to port [n]: the port is held by
    another process or reserved ([busy]), or held by a socket of this
    process. *)
Definition port_taken (busy : Z → bool) (p : Process) (n : Z) : bool :=
  busy n || bool_decide (n ∈ port <$> listeners p).

Definition log_bind (addr : Address) (p : Process) : Process :=
  {| _server := _server p; _port := _port p; listeners := listeners p;
     threads := threads p; timers := timers p;
     bind_log := (bind_log p ++ [addr])%list |}.

Definition add_listener (addr : Address) (p : Process) : Process :=
  {| _server := _server p; _port := _port p;
     listeners := (listeners p ++ [addr])%list;
     threads := threads p; timers := timers p; bind_log := bind_log p |}.

(** [server_bind]: [socket.bind((host, n))], then [getsockname()] for the
    port the socket ended on.  A port outside 0..65535 is an OverflowError.
    Port 0 asks the system for a port of its choice, [ephemeral] ([None]:
    it has none to give, an OSError).  A port that is taken is an
    OSError. *)
Definition server_bind (busy : Z → bool) (ephemeral : option Z) (p : Process) (n : Z)
  : result Z :=
  if bool_decide (0 ≤ n ≤ 65535)%Z then
    if bool_decide (n = 0)%Z then
      match ephemeral with
      | Some e => Ok e
      | None => Raise OSError
      end
    else if port_taken busy p n then Raise OSError else Ok n
  else Raise OverflowError.

(** [_ThreadedHTTPServer(addr, _DashboardHandler)]: binds and listens; the
    server object stands for the address it listens on.  When the bind
    raises, the socket is closed and the exception goes to the caller. *)
Definition _ThreadedHTTPServer (busy : Z → bool) (ephemeral : option Z)
    (addr : Address) : M Process Address :=
  λ p,
    match server_bind busy ephemeral p (port addr) with
    | Ok n =>
        let srv := {| host := host addr; port := n |} in
        (Ok srv, add_listener srv (log_bind addr p))
    | Raise e => (Raise e, log_bind addr p)
    | Blocked => (Blocked, log_bind addr p)
    end.

Definition set_server (srv : Address) : M Process unit :=
  modify (λ p, {| _server := Some srv; _port := _port p; listeners := listeners p;
                  threads := threads p; timers := timers p; bind_log := bind_log p |}).

Definition set_port (n : Z) : M Process unit :=
  modify (λ p, {| _server := _server p; _port := n; listeners := listeners p;
                  threads := threads p; timers := timers p; bind_log := bind_log p |}).

(** [threading.Thread(target=srv.serve_forever, daemon=True).start()] *)
Definition Thread_start (srv : Address) : M Process unit :=
  modify (λ p, {| _server := _server p; _port := _port p; listeners := listeners p;
                  threads := threads p ++ [srv]; timers := timers p;
                  bind_log := bind_log p |}).

(** [threading.Timer(0.5, webbrowser.open, args=[url]).start()] *)
Definition Timer_start (url : string) : M Process unit :=
  modify (λ p, {| _server := _server p; _port := _port p; listeners := listeners p;
                  threads := threads p; timers := timers p ++ [url];
                  bind_log := bind_log p |}).

(** The address [("127.0.0.1", port)]. *)
Definition loopback (n : Z) : Address := {| host := "127.0.0.1"; port := n |}.

(** [for port in ports: try: ... return port  except OSError: continue],
    then [return None]. *)
Fixpoint scan (busy : Z → bool) (ephemeral : option Z) (ports : list Z)
  : M Process (option Z) :=
  match ports with
  | [] => ret None
  | port :: rest =>
      try_except
        (srv <~ _ThreadedHTTPServer busy ephemeral (loopback port);;
         set_server srv;;;
         set_port port;;;
         Thread_start srv;;;
         Timer_start ("http://127.0.0.1:" ++ pretty port);;;
         ret (Some port))%py
        (λ e, match e with OSError => scan busy ephemeral rest | _ => raise e end)
  end.

(** [range(port_start, port_end + 1)] *)
Definition port_range (port_start port_end : Z) : list Z :=
  seqZ port_start (port_end + 1 - port_start).

Definition start (busy : Z → bool) (ephemeral : option Z) (port_start port_end : Z)
  : M Process (option Z) :=
  (srv <~ gets _server;;
   match srv with
   | Some _ => p <~ gets _port;; ret (Some p)
   | None => scan busy ephemeral (port_range port_start port_end)
   end)%py.

(** Successive calls of [start], one per range, with their results. *)
Fixpoint start_each (busy : Z → bool) (ephemeral : option Z)
    (ranges : list (Z * Z)) (p : Process)
  : list (result (option Z)) * Process :=
  match ranges with
  | [] => ([], p)
  | (port_start, port_end) :: rest =>
      let (r, p1) := start busy ephemeral port_start port_end p in
      let (rs, p2) := start_each busy ephemeral rest p1 in
      (r :: rs, p2)
  end.

End Server.
Import Server.

(** ** Vocabulary of the statements *)

Local Open Scope list_scope.

Module Facts.

(** The ids of a list of records, in order. *)
Definition ids (h : list event) : list Z := eid <$> h.

(** What a queue holds after one non-blocking offer of [x]. *)
Definition offer (x : event) (q : Queue) : Queue :=
  if full q then q else enqueue x q.

(** The store after [x] was offered to each queue of [subs] in turn. *)
Definition deliver (x : event) (subs : list qref) (m : gmap nat Queue) : gmap nat Queue :=
  foldl (λ m r, match m !! r with
                | Some q => <[r := offer x q]> m
                | None => m
                end) m subs.

(** The history after the trimming step of [push]. *)
Definition trim (h : list event) : list event :=
  if bool_decide (_HISTORY_SIZE < length h) then last_n _HISTORY_SIZE h else h.

(** The number of publishes of a run that returned to their caller. *)
Fixpoint pushes_returned (cs : list call) (w : World) : nat :=
  match cs with
  | [] => 0
  | c :: cs' =>
      match c with
      | CallPush room t d =>
          match push_event room t d w with
          | (Ok _, _) => 1
          | _ => 0
          end
      | _ => 0
      end + pushes_returned cs' (exec c w)
  end.

(** What holds of the bus in every world the process reaches. *)
Record bus_inv (w : World) : Prop := mk_bus_inv {
  inv_next : (1 ≤ _next_id (_bus w))%Z;
  inv_len :
    length (_history (_bus w))
    = Nat.min _HISTORY_SIZE (Z.to_nat (_next_id (_bus w) - 1));
  inv_ids :
    ids (_history (_bus w))
    = seqZ (_next_id (_bus w) - Z.of_nat (length (_history (_bus w))))
           (Z.of_nat (length (_history (_bus w))));
  inv_nodup : NoDup (_subscribers (_bus w));
  inv_live : ∀ q, q ∈ _subscribers (_bus w) → is_Some (queues w !! q);
  inv_cap : ∀ q que, queues w !! q = Some que →
            maxsize que = 512%Z ∧ (length (items que) ≤ 512)%nat
}.

(** [f] on each element in turn, up to the first that raises. *)
Fixpoint rmap {A B} (f : A → result B) (l : list A) : result (list B) :=
  match l with
  | [] => Ok []
  | x :: l' => rbind (f x) (λ y, rbind (rmap f l') (λ ys, Ok (y :: ys)))
  end.

(** One item of a dict, as the encoder writes it. *)
Definition dump_item (room : nat) (kv : pyval * pyval) : result (string * json) :=
  rbind (encode_key kv.1) (λ ks, rbind (dumps room kv.2) (λ j, Ok (ks, j))).

(** The members of an object, parsed and put into the dict [d] in turn. *)
Fixpoint load_pairs (room : nat) (l : list (string * json)) (d : list (pyval * pyval))
  : result (list (pyval * pyval)) :=
  match l with
  | [] => Ok d
  | (k, v) :: l' => rbind (loads room v) (λ o, load_pairs room l' (dict_set k o d))
  end.

(** The exceptions of a json call on values that are JSON already. *)
Definition json_error {A} (r : result A) : Prop :=
  r = Raise ValueError ∨ r = Raise RecursionError.

(** A dict as [loads] builds it: str keys, native values. *)
Definition plain_dict (d : list (pyval * pyval)) : Prop :=
  Forall (λ kv, (∃ k, kv.1 = PyStr k) ∧ native kv.2 = true) d.

(** What holds of the server globals after any number of [start] calls:
    the process listens on at most one socket, the one [_server] stands
    for, at the loopback address, and at port [_port] unless that is 0. *)
Record server_inv (p : Process) : Prop := mk_server_inv {
  sinv_unstarted : _server p = None → listeners p = [];
  sinv_started : ∀ srv, _server p = Some srv →
                 host srv = "127.0.0.1"
                 ∧ (_port p ≠ 0%Z → port srv = _port p)
                 ∧ listeners p = [srv];
  sinv_log : Forall (λ a, host a = "127.0.0.1") (bind_log p)
}.

End Facts.
Import Facts.

(** ** Concrete scenarios *)

Module Scenarios.

(** The nesting a producer near the bottom of the stack is allowed under
    the default recursion limit. *)
Definition plenty : nat := 900.

(** Three publishes, the second with a value json cannot encode itself. *)
Definition three_pushes : list call :=
  [CallPush plenty "code_input" (PyDict [(PyStr "code", PyStr "print(1)")]);
   CallPush plenty "status"
     (PyDict [(PyStr "at", PyObject "datetime" (Some "2024-01-01 00:00:00"))]);
   CallPush plenty "chart" (PyDict [(PyStr "index", PyInt 0)])].

(** [n] publishes in a row, none of them consumed. *)
Definition flood (n : nat) : list call := replicate n (CallPush plenty "status" PyNone).

(** [{"points": {(1, 2): 3}}]: a str-keyed payload whose value is a dict
    keyed by a tuple. *)
Definition tuple_keyed : pyval :=
  PyDict [(PyStr "points", PyDict [(PyTuple [PyInt 1; PyInt 2], PyInt 3)])].

(** A client connects to a fresh bus and never reads; 512 publishes
    follow. *)
Definition stalled_client : list call := CallSubscribe 0 :: flood 512.

(** A client resumes after id 1, receives two events and a third that is
    published meanwhile, idles into a keepalive, and is gone when the next
    keepalive is written. *)
Definition client_hangs_up : list step :=
  [Pass Written; Pass Written;
   Elsewhere (CallPush plenty "status" PyNone);
   Pass Written; Pass Written;
   Pass (WriteFails BrokenPipeError)].

(** Ports 5111 and 5112 are held by other processes. *)
Definition two_busy (n : Z) : bool := bool_decide (n = 5111 ∨ n = 5112)%Z.

(** Every port is held by another process. *)
Definition all_busy (n : Z) : bool := true.

End Scenarios.
Import Scenarios.

(** ** The resume cursor of a stream request *)

Module Resume.

Import Stdlib.Strings.Ascii.

(** Request lines and header values reach the handler decoded as
    ISO-8859-1, one character per byte. *)

(** [c.isdigit()] on those characters: the ASCII digits and the
    superscripts two, three and one (bytes 178, 179, 185). *)
Definition isdigit_char (c : Ascii.ascii) : bool :=
  let n := Ascii.N_of_ascii c in
  ((48 <=? n) && (n <=? 57) || (n =? 178) || (n =? 179) || (n =? 185))%N.

(** [c.isdecimal()]: the ASCII digits only. *)
Definition isdecimal_char (c : Ascii.ascii) : bool :=
  let n := Ascii.N_of_ascii c in ((48 <=? n) && (n <=? 57))%N.

Fixpoint all_chars (p : Ascii.ascii → bool) (s : string) : bool :=
  match s with
  | EmptyString => true
  | String c s' => p c && all_chars p s'
  end.

(** [s.isdigit()]: false on the empty string. *)
Definition isdigit (s : string) : bool :=
  match s with
  | EmptyString => false
  | _ => all_chars isdigit_char s
  end.

Definition isdecimal (s : string) : bool :=
  match s with
  | EmptyString => false
  | _ => all_chars isdecimal_char s
  end.

(** [int(s)] on the strings that reach it, those [isdigit] accepts: the
    decimal value of ASCII digits, ValueError otherwise. *)
Definition int_ (s : string) : result Z :=
  if bool_decide (int_max_str_digits < String.length s) then Raise ValueError
  else match DecimalString.NilZero.uint_of_string s with
       | Some d => Ok (Z.of_N (N.of_uint d))
       | None => Raise ValueError
       end.

(** The decimal text of a number, as a client writes its cursor. *)
Definition decimal (n : N) : string :=
  DecimalString.NilZero.string_of_uint (N.to_uint n).

(** [c in s] *)
Fixpoint contains (c : Ascii.ascii) (s : string) : bool :=
  match s with
  | EmptyString => false
  | String a s' => Ascii.eqb a c || contains c s'
  end.

(** [s.split(c, 1)[1]]: what follows the first [c]; IndexError when [s] has
    no [c]. *)
Fixpoint after_first (c : Ascii.ascii) (s : string) : result string :=
  match s with
  | EmptyString => Raise (OtherError "IndexError")
  | String a s' => if Ascii.eqb a c then Ok s' else after_first c s'
  end.

(** [s.split(c)] *)
Fixpoint split (c : Ascii.ascii) (s : string) : list string :=
  match s with
  | EmptyString => [EmptyString]
  | String a s' =>
      if Ascii.eqb a c then EmptyString :: split c s'
      else match split c s' with
           | seg :: rest => String a seg :: rest
           | [] => [String a EmptyString]
           end
  end.

(** [header_id = self.headers.get("Last-Event-ID", "")], then
    [if header_id.isdigit(): last_id = int(header_id)] on [last_id = 0]. *)
Definition header_last_id (header : option string) : result Z :=
  let header_id := default EmptyString header in
  if isdigit header_id then int_ header_id else Ok 0%Z.

(** The body of [for param in qs.split("&")]. *)
Definition param_last_id (last_id : Z) (param : string) : result Z :=
  if String.prefix "last_event_id=" param then
    rbind (after_first "="%char param) (λ val,
      if isdigit val then int_ val else Ok last_id)
  else Ok last_id.

Fixpoint params_last_id (last_id : Z) (params : list string) : result Z :=
  match params with
  | [] => Ok last_id
  | param :: rest =>
      rbind (param_last_id last_id param) (λ last_id', params_last_id last_id' rest)
  end.

(** The cursor [_serve_sse] computes before it answers. *)
Definition parse_last_id (header : option string) (path : string) : result Z :=
  rbind (header_last_id header) (λ last_id,
    if contains "?"%char path then
      rbind (after_first "?"%char path) (λ qs, params_last_id last_id (split "&"%char qs))
    else Ok last_id).

(** [_serve_sse] as a whole: the cursor, then the stream.  An exception of
    the parsing leaves before anything is sent or subscribed. *)
Definition _serve_sse_request (room : nat) (header : option string)
    (path : string) (sched : list step) (c : Conn) : served * Conn :=
  match parse_last_id header path with
  | Ok last_id => _serve_sse room last_id sched c
  | Raise e => (Exited (Raise e), c)
  | Blocked => (Exited Blocked, c)
  end.

End Resume.
Import Resume.

(** ** More vocabulary *)

Module Wire.

(** The ids of the event frames written to a client, in order. *)
Definition frame_ids (fs : list frame) : list Z :=
  omap (λ f, match f with DataFrame id _ => Some id | KeepaliveFrame => None end) fs.

(** A connection on which nobody else acts: only passes of its own loop. *)
Definition alone (outcomes : list write_outcome) : list step := Pass <$> outcomes.

(** Every queue holds records in strictly ascending id order, all stamped
    already. *)
Definition queues_sorted (w : World) : Prop :=
  ∀ q que, queues w !! q = Some que →
    StronglySorted Z.lt (ids (items que))
    ∧ Forall (λ i, (i < _next_id (_bus w))%Z) (ids (items que)).

(** The calls that take from queue [q] or stop its deliveries. *)
Definition leaves_alone (q : qref) (c : call) : Prop :=
  c ≠ CallUnsubscribe q ∧ c ≠ CallGet q.

(** The ids waiting in queue [q]. *)
Definition pending (q : qref) (w : World) : list Z :=
  from_option (λ que, ids (items que)) [] (queues w !! q).

(** What a client of queue [sub] has been sent and is still to be sent is
    one ascending run of ids, from [lo] on and below the counter. *)
Definition wire_ok (lo : Z) (sub : qref) (c : Conn) : Prop :=
  StronglySorted Z.lt (frame_ids (wfile c) ++ pending sub (world c))
  ∧ Forall (λ i, (lo ≤ i < _next_id (_bus (world c)))%Z)
           (frame_ids (wfile c) ++ pending sub (world c))
  ∧ (lo ≤ _next_id (_bus (world c)))%Z.

End Wire.
Import Wire.

(** ** The brokerage sidecar: the session it keeps *)

Module Sidecar.

(** What the endpoints raise. *)
Inductive sexn :=
| RuntimeError (msg : string)
| HTTPException (status_code : nat) (detail : string)
| BrowserError.   (* an exception of the browser library *)

Inductive outcome (A : Type) :=
| Returns (a : A)
| Raises (e : sexn).
Global Arguments Returns {A} a.
Global Arguments Raises {A} e.

(** A [FidelityAutomation] object: a browser that was launched, then
    perhaps logged in, then perhaps closed. *)
Inductive session := Launched | LoggedIn | Closed.

(** The global [bot], a reference to one of the objects created so far. *)
Record Service := mkService {
  bot : option nat;
  browsers : list session
}.

Definition cold : Service := {| bot := None; browsers := [] |}.

Definition set_bot (b : option nat) (s : Service) : Service :=
  {| bot := b; browsers := browsers s |}.

(** [bot.close_browser()]; the library decides whether it raises
    ([closing = Some e]), and then the browser is as it was. *)
Definition close_browser (closing : option sexn) (b : nat) (s : Service)
  : outcome unit * Service :=
  match closing with
  | None => (Returns tt, {| bot := bot s; browsers := <[b := Closed]> (browsers s) |})
  | Some e => (Raises e, s)
  end.

Definition login_failed : string :=
  "Fidelity login failed (bad credentials or network issue)".

Definition needs_totp : string :=
  "Fidelity login requires SMS 2FA. Configure a TOTP authenticator and set FIDELITY_TOTP_SECRET.".

(** [_ensure_logged_in], under [bot_lock]; the constructor and
    [bot.login(...)] are taken to return, [step1, step2] is what the login
    returns. *)
Definition _ensure_logged_in (step1 step2 : bool) (closing : option sexn)
    (s : Service) : outcome nat * Service :=
  match bot s with
  | Some b => (Returns b, s)
  | None =>
      let b := length (browsers s) in
      let s1 := {| bot := Some b; browsers := browsers s ++ [Launched] |} in
      if negb step1 then
        match close_browser closing b s1 with
        | (Returns _, s2) => (Raises (RuntimeError login_failed), set_bot None s2)
        | (Raises e, s2) => (Raises e, s2)
        end
      else if negb step2 then
        match close_browser closing b s1 with
        | (Returns _, s2) => (Raises (RuntimeError needs_totp), set_bot None s2)
        | (Raises e, s2) => (Raises e, s2)
        end
      else (Returns b, {| bot := Some b; browsers := <[b := LoggedIn]> (browsers s1) |})
  end.

(** [_shutdown_bot]: [try: bot.close_browser() except Exception: pass],
    then [bot = None]. *)
Definition _shutdown_bot (closing : option sexn) (s : Service)
  : outcome unit * Service :=
  match bot s with
  | Some b => (Returns tt, set_bot None (close_browser closing b s).2)
  | None => (Returns tt, s)
  end.

(** [GET /health]: the [logged_in] field. *)
Definition health (s : Service) : bool :=
  match bot s with Some _ => true | None => false end.

(** [POST /connect]: [{"success": True}], or 503 with the text of the
    RuntimeError. *)
Definition connect (step1 step2 : bool) (closing : option sexn) (s : Service)
  : outcome bool * Service :=
  match _ensure_logged_in step1 step2 closing s with
  | (Returns _, s') => (Returns true, s')
  | (Raises (RuntimeError msg), s') => (Raises (HTTPException 503 msg), s')
  | (Raises e, s') => (Raises e, s')
  end.

(** [POST /disconnect] *)
Definition disconnect (closing : option sexn) (s : Service)
  : outcome bool * Service :=
  (Returns true, (_shutdown_bot closing s).2).

(** A request to the session endpoints, with what the library does while
    it is served. *)
Inductive api :=
| PostConnect (step1 step2 : bool) (closing : option sexn)
| PostDisconnect (closing : option sexn).

Definition api_exec (r : api) (s : Service) : Service :=
  match r with
  | PostConnect step1 step2 closing => (connect step1 step2 closing s).2
  | PostDisconnect closing => (disconnect closing s).2
  end.

Definition api_run (rs : list api) (s : Service) : Service :=
  foldl (λ s r, api_exec r s) s rs.

(** The library never raises in [close_browser] while [r] is served. *)
Definition closes_cleanly (r : api) : bool :=
  match r with
  | PostConnect _ _ None | PostDisconnect None => true
  | _ => false
  end.

(** The session the service holds is a logged-in browser, and no other
    browser is left open. *)
Definition one_session (s : Service) : Prop :=
  (∀ b, bot s = Some b → browsers s !! b = Some LoggedIn)
  ∧ (∀ i st, browsers s !! i = Some st → bot s ≠ Some i → st = Closed).

End Sidecar.
Import Sidecar.

(** ** More scenarios *)

Module MoreScenarios.

(** The one-character string of a superscript two (byte 178). *)
Definition superscript_two : string :=
  String (Ascii.ascii_of_nat 178) EmptyString.

(** A client connects to a fresh bus, then three events are published. *)
Definition joined_then_three : list call := CallSubscribe 0 :: three_pushes.

(** A connection that receives two events and then finds the pipe broken. *)
Definition two_then_gone : list write_outcome :=
  [Written; Written; WriteFails BrokenPipeError].

(** A wrong password, a good login, a disconnect, then a login that asks
    for SMS. *)
Definition session_log : list api :=
  [PostConnect false true None; PostConnect true true None;
   PostDisconnect None; PostConnect true false None].

(** [{1: "a", "1": "b"}]: two keys that json writes alike. *)
Definition twice_keyed : pyval :=
  PyDict [(PyInt 1, PyStr "a"); (PyStr "1", PyStr "b")].

End MoreScenarios.
Import MoreScenarios.

(** * Properties *)

(** ** The encoder *)

Section Encoder.

(** Induction over payloads, with the hypothesis available for every
    element of a list or tuple and every value of a dict. *)
Lemma pyval_nested_ind (P : pyval → Prop) :
  P PyNone →
  (∀ b, P (PyBool b)) →
  (∀ z, P (PyInt z)) →
  (∀ r, P (PyFloat r)) →
  (∀ s, P (PyStr s)) →
  (∀ l, Forall P l → P (PyList l)) →
  (∀ l, Forall P l → P (PyTuple l)) →
  (∀ items, Forall (λ kv, P kv.2) items → P (PyDict items)) →
  (∀ cls s, P (PyObject cls s)) →
  ∀ o, P o.
Proof.
  intros HNone HBool HInt HFloat HStr HList HTuple HDict HObj.
  fix IH 1. intros [ | b | z | r | s | l | l | items | cls s].
  - exact HNone.
  - apply HBool.
  - apply HInt.
  - apply HFloat.
  - apply HStr.
  - apply HList. induction l as [|x l IHl]; constructor; [apply IH | exact IHl].
  - apply HTuple. induction l as [|x l IHl]; constructor; [apply IH | exact IHl].
  - apply HDict. induction items as [|[k v] l IHl]; constructor;
      [apply IH | exact IHl].
  - apply HObj.
Qed.

Lemma int_repr_cases z :
  (int_ok z = true ∧ int_repr z = Ok (pretty z))
  ∨ (int_ok z = false ∧ int_repr z = Raise ValueError).
Proof. unfold int_ok, int_repr. case_bool_decide; [right|left]; done. Qed.

Lemma encode_key_cases k :
  (key_ok k = true ∧ ∃ s, encode_key k = Ok s)
  ∨ (key_ok k = false ∧ ∃ e, encode_key k = Raise e).
Proof.
  destruct k as [ | [] | z | | | | | | ]; simpl; eauto.
  destruct (int_repr_cases z) as [[-> ->] | [-> ->]]; eauto.
Qed.

(** [dumps] returns exactly on the [serializable] payloads and raises on
    the others; it never waits. *)
Lemma dumps_cases room o :
  (serializable room o = true ∧ ∃ j, dumps room o = Ok j)
  ∨ (serializable room o = false ∧ ∃ e, dumps room o = Raise e).
Proof.
  revert room.
  induction o as [ | b | z | r | s | l IH | l IH | items IH | cls s]
    using pyval_nested_ind; intros room; simpl; eauto.
  - destruct (int_repr_cases z) as [[-> ->] | [-> ->]]; simpl; eauto.
  - destruct room as [|room]; simpl; [right; eauto|].
    induction IH as [|x l Hx _ IHl]; [left; eauto|].
    destruct (Hx room) as [[-> [j ->]] | [-> [e ->]]]; simpl; [|right; eauto].
    destruct IHl as [[-> [j' Hj']] | [-> [e He]]]; [left|right]; split; try done.
    + revert Hj'. unfold rbind at 1 3.
      destruct ((fix elements (l0 : list pyval) := _) l); naive_solver.
    + revert He. unfold rbind at 1 3.
      destruct ((fix elements (l0 : list pyval) := _) l); naive_solver.
  - destruct room as [|room]; simpl; [right; eauto|].
    induction IH as [|x l Hx _ IHl]; [left; eauto|].
    destruct (Hx room) as [[-> [j ->]] | [-> [e ->]]]; simpl; [|right; eauto].
    destruct IHl as [[-> [j' Hj']] | [-> [e He]]]; [left|right]; split; try done.
    + revert Hj'. unfold rbind at 1 3.
      destruct ((fix elements (l0 : list pyval) := _) l); naive_solver.
    + revert He. unfold rbind at 1 3.
      destruct ((fix elements (l0 : list pyval) := _) l); naive_solver.
  - destruct room as [|room]; simpl; [right; eauto|].
    induction IH as [|[k v] l Hx _ IHl]; [left; eauto|]. simpl in Hx.
    destruct (encode_key_cases k) as [[-> [ks ->]] | [-> [e ->]]]; simpl;
      [|right; eauto].
    destruct (Hx room) as [[-> [j ->]] | [-> [e ->]]]; simpl; [|right; eauto].
    destruct IHl as [[-> [j' Hj']] | [-> [e He]]]; [left|right]; split; try done.
    + revert Hj'. unfold rbind at 1 3.
      destruct ((fix members (l0 : list (pyval * pyval)) := _) l); naive_solver.
    + revert He. unfold rbind at 1 3.
      destruct ((fix members (l0 : list (pyval * pyval)) := _) l); naive_solver.
  - destruct s, room; simpl; eauto.
Qed.

Lemma dumps_serializable room o :
  serializable room o = true ↔ ∃ j, dumps room o = Ok j.
Proof.
  destruct (dumps_cases room o) as [[-> [j ->]] | [-> [e ->]]]; split; eauto.
  - discriminate.
  - intros [j [=]].
Qed.

(** Induction over documents, with the hypothesis available for every
    element of an array and every member of an object. *)
Lemma json_nested_ind (P : json → Prop) :
  P JNull →
  (∀ b, P (JBool b)) →
  (∀ z, P (JInt z)) →
  (∀ r, P (JFloat r)) →
  (∀ s, P (JStr s)) →
  (∀ l, Forall P l → P (JArr l)) →
  (∀ ms, Forall (λ kv, P kv.2) ms → P (JObj ms)) →
  ∀ j, P j.
Proof.
  intros HNull HBool HInt HFloat HStr HArr HObj.
  fix IH 1. intros [ | b | z | r | s | l | ms].
  - exact HNull.
  - apply HBool.
  - apply HInt.
  - apply HFloat.
  - apply HStr.
  - apply HArr. induction l as [|x l IHl]; constructor; [apply IH | exact IHl].
  - apply HObj. induction ms as [|[k v] l IHl]; constructor;
      [apply IH | exact IHl].
Qed.

Lemma native_list l :
  native (PyList l) = true ↔ Forall (λ x, native x = true) l.
Proof.
  induction l as [|x l IH]; [by split; [constructor|]|].
  rewrite Forall_cons, <- IH. cbn. by rewrite andb_true_iff.
Qed.

Lemma native_dict d : native (PyDict d) = true ↔ plain_dict d.
Proof.
  unfold plain_dict. induction d as [|[k v] d IH]; [by split; [constructor|]|].
  rewrite Forall_cons, <- IH. cbn.
  destruct k; cbn; rewrite ?andb_true_iff; try naive_solver.
Qed.

Lemma plain_dict_set k v d :
  native v = true → plain_dict d → plain_dict (dict_set k v d).
Proof.
  intros Hv. unfold plain_dict. induction 1 as [|[k' v'] d [[s Hk] Hv'] Hd IH].
  { cbn. repeat constructor; eauto. }
  cbn in Hk. subst k'. cbn. destruct (String.eqb s k).
  - constructor; [split; eauto | done].
  - constructor; [split; eauto | done].
Qed.

(** [loads] returns a native value or raises a json error. *)
Lemma loads_cases room j :
  (∃ o, loads room j = Ok o ∧ native o = true) ∨ json_error (loads room j).
Proof.
  unfold json_error. revert room.
  induction j as [ | b | z | r | s | l IH | ms IH] using json_nested_ind;
    intros room; simpl; eauto.
  - case_bool_decide; eauto.
  - destruct room as [|room]; simpl; [by right; right|].
    assert (Hl : (∃ os, (fix elements (l : list json) : result (list pyval) :=
                           match l with
                           | [] => Ok []
                           | x :: l' =>
                               rbind (loads room x) (λ o,
                               rbind (elements l') (λ os, Ok (o :: os)))
                           end) l = Ok os
                        ∧ Forall (λ x, native x = true) os)
                 ∨ json_error ((fix elements (l : list json) : result (list pyval) :=
                           match l with
                           | [] => Ok []
                           | x :: l' =>
                               rbind (loads room x) (λ o,
                               rbind (elements l') (λ os, Ok (o :: os)))
                           end) l)).
    { unfold json_error. induction IH as [|x l Hx _ IHl]; [left; eauto|].
      destruct (Hx room) as [(o & -> & Ho) | [-> | ->]]; simpl; eauto.
      destruct IHl as [(os & -> & Hos) | [-> | ->]]; simpl; eauto. }
    destruct Hl as [(os & -> & Hos) | [-> | ->]]; simpl; eauto.
    left. eexists. split; [done|]. by apply native_list.
  - destruct room as [|room]; simpl; [by right; right|].
    assert (Hl : ∀ d, plain_dict d →
              (∃ d', (fix pairs (l : list (string * json)) (d : list (pyval * pyval))
                        : result (list (pyval * pyval)) :=
                        match l with
                        | [] => Ok d
                        | (k, v) :: l' =>
                            rbind (loads room v) (λ o, pairs l' (dict_set k o d))
                        end) ms d = Ok d' ∧ plain_dict d')
              ∨ json_error ((fix pairs (l : list (string * json))
                               (d : list (pyval * pyval))
                               : result (list (pyval * pyval)) :=
                               match l with
                               | [] => Ok d
                               | (k, v) :: l' =>
                                   rbind (loads room v) (λ o, pairs l' (dict_set k o d))
                               end) ms d)).
    { unfold json_error. induction IH as [|[k v] l Hx _ IHl]; intros d Hd;
        [left; eauto|].
      simpl in Hx. destruct (Hx room) as [(o & -> & Ho) | [-> | ->]]; simpl; eauto.
      apply IHl. by apply plain_dict_set. }
    destruct (Hl [] (Forall_nil_2 _)) as [(d' & -> & Hd') | [-> | ->]]; simpl; eauto.
    left. eexists. split; [done|]. by apply native_dict.
Qed.

(** On a native value the encoder needs no [default] and meets no bad
    key: it returns or raises a json error. *)
Lemma dumps_native room o :
  native o = true → (∃ j, dumps room o = Ok j) ∨ json_error (dumps room o).
Proof.
  unfold json_error. revert room.
  induction o as [ | b | z | r | s | l IH | l IH | items IH | cls s]
    using pyval_nested_ind; intros room Hnat; simpl; eauto; try done.
  - destruct (int_repr_cases z) as [[_ ->] | [_ ->]]; simpl; eauto.
  - apply native_list in Hnat.
    destruct room as [|room]; simpl; [by right; right|].
    assert (Hl : (∃ js, (fix elements (l : list pyval) : result (list json) :=
                           match l with
                           | [] => Ok []
                           | x :: l' =>
                               rbind (dumps room x) (λ j,
                               rbind (elements l') (λ js, Ok (j :: js)))
                           end) l = Ok js)
                 ∨ json_error ((fix elements (l : list pyval) : result (list json) :=
                           match l with
                           | [] => Ok []
                           | x :: l' =>
                               rbind (dumps room x) (λ j,
                               rbind (elements l') (λ js, Ok (j :: js)))
                           end) l)).
    { unfold json_error. induction IH as [|x l Hx _ IHl]; [left; eauto|].
      apply Forall_cons in Hnat as [Hn Hnat].
      destruct (Hx room Hn) as [(j & ->) | [-> | ->]]; simpl; eauto.
      destruct (IHl Hnat) as [(js & ->) | [-> | ->]]; simpl; eauto. }
    destruct Hl as [(js & ->) | [-> | ->]]; simpl; eauto.
  - apply native_dict in Hnat.
    destruct room as [|room]; simpl; [by right; right|].
    assert (Hl : (∃ ms, (fix members (l : list (pyval * pyval))
                           : result (list (string * json)) :=
                           match l with
                           | [] => Ok []
                           | (k, v) :: l' =>
                               rbind (encode_key k) (λ ks,
                               rbind (dumps room v) (λ j,
                               rbind (members l') (λ ms, Ok ((ks, j) :: ms))))
                           end) items = Ok ms)
                 ∨ json_error ((fix members (l : list (pyval * pyval))
                                  : result (list (string * json)) :=
                                  match l with
                                  | [] => Ok []
                                  | (k, v) :: l' =>
                                      rbind (encode_key k) (λ ks,
                                      rbind (dumps room v) (λ j,
                                      rbind (members l') (λ ms, Ok ((ks, j) :: ms))))
                                  end) items)).
    { unfold json_error. induction IH as [|[k v] l Hx _ IHl]; [left; eauto|].
      apply Forall_cons in Hnat as [[[ks Hk] Hn] Hnat]. cbn in Hk, Hn, Hx.
      subst k. simpl.
      destruct (Hx room Hn) as [(j & ->) | [-> | ->]]; simpl; eauto.
      destruct (IHl Hnat) as [(ms & ->) | [-> | ->]]; simpl; eauto. }
    destruct Hl as [(ms & ->) | [-> | ->]]; simpl; eauto.
Qed.

(** The encoder and the parser on containers, one level down. *)
Lemma dumps_list_eq room l :
  dumps (S room) (PyList l) = rbind (rmap (dumps room) l) (λ js, Ok (JArr js)).
Proof.
  cbn [dumps enter]. f_equal. induction l as [|x l IH]; [done|].
  cbn [rmap]. by rewrite <- IH.
Qed.

Lemma dumps_tuple_eq room l :
  dumps (S room) (PyTuple l) = rbind (rmap (dumps room) l) (λ js, Ok (JArr js)).
Proof.
  cbn [dumps enter]. f_equal. induction l as [|x l IH]; [done|].
  cbn [rmap]. by rewrite <- IH.
Qed.

Lemma dumps_dict_eq room items :
  dumps (S room) (PyDict items)
  = rbind (rmap (dump_item room) items) (λ ms, Ok (JObj ms)).
Proof.
  cbn [dumps enter]. f_equal. induction items as [|[k v] l IH]; [done|].
  cbn [rmap]. rewrite <- IH. unfold dump_item. cbn [fst snd].
  destruct (encode_key k); cbn [rbind]; [|done..].
  by destruct (dumps room v).
Qed.

Lemma loads_arr_eq room l :
  loads (S room) (JArr l) = rbind (rmap (loads room) l) (λ os, Ok (PyList os)).
Proof.
  cbn [loads enter]. f_equal. induction l as [|x l IH]; [done|].
  cbn [rmap]. by rewrite <- IH.
Qed.

Lemma loads_obj_eq room ms :
  loads (S room) (JObj ms) = rbind (load_pairs room ms []) (λ d, Ok (PyDict d)).
Proof.
  cbn [loads enter]. f_equal. generalize (@nil (pyval * pyval)).
  induction ms as [|[k v] l IH]; intros d; [done|].
  cbn [load_pairs]. destruct (loads room v); cbn [rbind]; [|done..]. apply IH.
Qed.

Lemma serializable_list_eq room l :
  serializable (S room) (PyList l) = forallb (serializable room) l.
Proof. cbn [serializable]. induction l as [|x l IH]; [done|]. cbn. by rewrite IH. Qed.

Lemma serializable_dict_eq room d :
  serializable (S room) (PyDict d)
  = forallb (λ kv, key_ok kv.1 && serializable room kv.2) d.
Proof.
  cbn [serializable]. induction d as [|[k v] l IH]; [done|]. cbn. by rewrite IH.
Qed.

Lemma rmap_Ok {A B} (f : A → result B) l ys :
  rmap f l = Ok ys ↔ Forall2 (λ x y, f x = Ok y) l ys.
Proof.
  revert ys. induction l as [|x l IH]; intros ys; cbn.
  - split; [intros [= <-]; constructor | by intros ->%Forall2_nil_inv_l].
  - destruct (f x) as [y| |] eqn:Hx; cbn.
    + destruct (rmap f l) as [ys'| |] eqn:Hl; cbn.
      * split.
        -- intros [= <-]. constructor; [done|]. by apply IH.
        -- intros (y' & ys'' & Hy & Hys & ->)%Forall2_cons_inv_l.
           apply IH in Hys. congruence.
      * split; [done|]. intros (y' & ys'' & Hy & Hys & ->)%Forall2_cons_inv_l.
        apply IH in Hys. congruence.
      * split; [done|]. intros (y' & ys'' & Hy & Hys & ->)%Forall2_cons_inv_l.
        apply IH in Hys. congruence.
    + split; [done|]. intros (y' & ys'' & Hy & Hys & ->)%Forall2_cons_inv_l.
      congruence.
    + split; [done|]. intros (y' & ys'' & Hy & Hys & ->)%Forall2_cons_inv_l.
      congruence.
Qed.

End Encoder.

(** ** The bus, method by method *)

Section BusMethods.

Implicit Types (w : World) (q r : qref) (x : event) (que : Queue).

Lemma world_eta w : {| _bus := _bus w; queues := queues w |} = w.
Proof. by destruct w. Qed.

Lemma put_nowait_eq r x w que :
  queues w !! r = Some que →
  put_nowait r x w =
    if full que then (Raise Full, w)
    else (Ok tt, {| _bus := _bus w; queues := <[r := enqueue x que]> (queues w) |}).
Proof.
  intros Hr. unfold put_nowait, bind, deref. rewrite Hr.
  by destruct (full que).
Qed.

Lemma deliver_cons x r subs (m : gmap nat Queue) :
  deliver x (r :: subs) m
  = deliver x subs (match m !! r with
                    | Some que => <[r := offer x que]> m
                    | None => m
                    end).
Proof. done. Qed.

(** The fan-out loop of [push] returns, and leaves [deliver]. *)
Lemma fan_out_eq x subs w :
  (∀ q, q ∈ subs → is_Some (queues w !! q)) →
  for_each subs (λ q,
    try_except (put_nowait q x)
               (λ e, match e with Full => ret tt | _ => raise e end)) w
  = (Ok tt, {| _bus := _bus w; queues := deliver x subs (queues w) |}).
Proof.
  revert w. induction subs as [|q subs IH]; intros w Hlive.
  { simpl. unfold ret. by rewrite world_eta. }
  destruct (Hlive q) as [que Hq]; [by left|].
  cbn [for_each]. unfold bind at 1, try_except at 1.
  rewrite (put_nowait_eq _ _ _ _ Hq).
  rewrite deliver_cons, Hq. unfold offer.
  destruct (full que) eqn:Hfull.
  - cbn. rewrite insert_id by done. apply IH.
    intros q' Hq'. apply Hlive. by right.
  - rewrite IH; [done|]. cbn. intros q' Hq'.
    rewrite lookup_insert. case_decide; [eauto|].
    apply Hlive. by right.
Qed.

Lemma lookup_deliver_notin x subs (m : gmap nat Queue) q :
  q ∉ subs → deliver x subs m !! q = m !! q.
Proof.
  revert m. induction subs as [|r subs IH]; intros m Hq; [done|].
  apply not_elem_of_cons in Hq as [Hne Hq].
  rewrite deliver_cons.
  rewrite IH by done. destruct (m !! r); [|done].
  by rewrite lookup_insert_ne.
Qed.

(** Each registered queue is offered the record exactly once. *)
Lemma lookup_deliver_in x subs (m : gmap nat Queue) q :
  NoDup subs → q ∈ subs → deliver x subs m !! q = offer x <$> (m !! q).
Proof.
  revert m. induction subs as [|r subs IH]; intros m Hnd Hq.
  { by apply elem_of_nil in Hq. }
  apply NoDup_cons in Hnd as [Hr Hnd].
  rewrite deliver_cons.
  apply elem_of_cons in Hq as [->|Hq].
  - rewrite lookup_deliver_notin by done.
    destruct (m !! r) as [que|] eqn:Hm; [|by rewrite Hm].
    by rewrite lookup_insert_eq.
  - rewrite IH by done.
    destruct (m !! r) as [que|] eqn:Hm; [|done].
    rewrite lookup_insert_ne; [done|]. intros ->. contradiction.
Qed.

Lemma push_eq room t d j w :
  dumps room d = Ok j →
  (∀ q, q ∈ _subscribers (_bus w) → is_Some (queues w !! q)) →
  let x := (_next_id (_bus w), t, j) in
  push room t d w =
    (Ok tt,
     {| _bus := {| _subscribers := _subscribers (_bus w);
                   _history := trim (_history (_bus w) ++ [x]);
                   _next_id := (_next_id (_bus w) + 1)%Z |};
        queues := deliver x (_subscribers (_bus w)) (queues w) |}).
Proof.
  intros Hd Hlive x. unfold push, bind at 1, lift. rewrite Hd.
  unfold bind at 1, gets at 1. unfold bind at 1, set_bus at 1, modify at 1.
  unfold bind at 1, set_bus at 1, modify at 1.
  unfold bind at 1, set_bus at 1, modify at 1.
  unfold bind at 1, gets at 1. cbn [_bus _subscribers _history _next_id queues].
  rewrite fan_out_eq by (cbn; done). done.
Qed.

(** A payload the encoder rejects: the exception leaves [push] before the
    bus is touched. *)
Lemma push_raises room t d e w : dumps room d = Raise e → push room t d w = (Raise e, w).
Proof. intros Hd. unfold push, bind at 1, lift. by rewrite Hd. Qed.

(** The replay loop of [subscribe] on a queue with room for what it
    puts. *)
Lemma replay_eq (k : Z) h q que w :
  queues w !! q = Some que →
  maxsize que = 512%Z →
  (length (items que) + length (filter (λ e, (eid e > k)%Z) h) ≤ 512)%nat →
  for_each h (λ e, if bool_decide (eid e > k)%Z then put q e else ret tt) w
  = (Ok tt,
     {| _bus := _bus w;
        queues := <[q := {| maxsize := maxsize que;
                            items := items que ++ filter (λ e, (eid e > k)%Z) h |}]>
                    (queues w) |}).
Proof.
  revert que w. induction h as [|e h IH]; intros que w Hq Hmax Hlen.
  { simpl. unfold ret. rewrite app_nil_r.
    destruct que as [mx its]. rewrite insert_id by done. by rewrite world_eta. }
  cbn [for_each]. unfold bind at 1. rewrite filter_cons in Hlen |- *.
  case_bool_decide as Hk.
  - rewrite decide_True in Hlen |- * by done. cbn [length] in Hlen.
    unfold put, bind at 1, deref. rewrite Hq.
    replace (full que) with false; last first.
    { symmetry. apply bool_decide_eq_false. lia. }
    unfold store, modify.
    rewrite (IH (enqueue e que)); cbn.
    + rewrite insert_insert_eq. by rewrite <- app_assoc.
    + by rewrite lookup_insert_eq.
    + done.
    + rewrite length_app. cbn. lia.
  - rewrite decide_False in Hlen |- * by done. unfold ret at 1.
    by apply IH.
Qed.

Lemma subscribe_eq (k : Z) w :
  (length (_history (_bus w)) ≤ 512)%nat →
  let q := fresh (dom (queues w)) in
  subscribe k w =
    (Ok q,
     {| _bus := {| _subscribers := _subscribers (_bus w) ++ [q];
                   _history := _history (_bus w);
                   _next_id := _next_id (_bus w) |};
        queues := <[q := {| maxsize := 512;
                            items := filter (λ e, (eid e > k)%Z) (_history (_bus w)) |}]>
                    (queues w) |}).
Proof.
  intros Hlen q. unfold subscribe, bind at 1. unfold Queue_new at 1. fold q.
  unfold bind at 1, gets at 1. cbn [_bus _history].
  unfold bind at 1.
  erewrite replay_eq; cycle 1.
  - cbn. apply lookup_insert_eq.
  - done.
  - cbn. pose proof (length_filter (λ e, (eid e > k)%Z) (_history (_bus w))). lia.
  - cbn. by rewrite insert_insert_eq.
Qed.

Lemma list_remove_None q subs : list_remove q subs = None ↔ q ∉ subs.
Proof.
  induction subs as [|r subs IH]; simpl.
  - split; [intros _; apply not_elem_of_nil | done].
  - rewrite not_elem_of_cons. case_decide as Hr.
    + split; [done | intros [? _]; congruence].
    + rewrite fmap_None, IH. naive_solver.
Qed.

Lemma list_remove_Some q subs subs' :
  NoDup subs → list_remove q subs = Some subs' →
  NoDup subs' ∧ (q ∉ subs') ∧ (∀ r, r ∈ subs' ↔ r ∈ subs ∧ r ≠ q).
Proof.
  revert subs'. induction subs as [|r subs IH]; intros subs' Hnd; [done|].
  apply NoDup_cons in Hnd as [Hr Hnd]. simpl. case_decide as Heq.
  - intros [= <-]. subst r. split_and!; try done.
    intros r. rewrite elem_of_cons. naive_solver.
  - intros Hrm. apply fmap_Some in Hrm as (l & Hl & ->).
    destruct (IH l Hnd Hl) as (Hnd' & Hq & Hiff).
    split_and!.
    + apply NoDup_cons. split; [|done]. rewrite Hiff. naive_solver.
    + rewrite not_elem_of_cons. done.
    + intros r'. rewrite !elem_of_cons, Hiff. naive_solver.
Qed.

(** [unsubscribe] always returns; it changes the registry only. *)
Lemma unsubscribe_eq q w :
  unsubscribe q w =
    (Ok tt,
     {| _bus := {| _subscribers :=
                     default (_subscribers (_bus w))
                             (list_remove q (_subscribers (_bus w)));
                   _history := _history (_bus w);
                   _next_id := _next_id (_bus w) |};
        queues := queues w |}).
Proof.
  unfold unsubscribe, try_except, bind, gets.
  destruct (list_remove q (_subscribers (_bus w))) as [l|] eqn:Hl; cbn.
  - done.
  - unfold ret. destruct w as [[] ?]; done.
Qed.

Lemma get_eq r w :
  get r w =
    match queues w !! r with
    | None => (Raise (OtherError "ReferenceError"), w)
    | Some que =>
        match items que with
        | [] => (Raise Empty, w)
        | x :: rest =>
            (Ok x, {| _bus := _bus w;
                      queues := <[r := {| maxsize := maxsize que; items := rest |}]>
                                  (queues w) |})
        end
    end.
Proof.
  unfold get, bind at 1, deref. destruct (queues w !! r) as [que|]; [|done].
  by destruct (items que).
Qed.

End BusMethods.

(** ** The invariant of the bus *)

Section BusInvariant.

Implicit Types (w : World) (q r : qref) (x : event) (que : Queue).

Lemma drop_seqZ (n : nat) (m len : Z) :
  (Z.of_nat n ≤ len)%Z →
  drop n (seqZ m len) = seqZ (m + Z.of_nat n) (len - Z.of_nat n).
Proof.
  intros Hn.
  replace len with (Z.of_nat n + (len - Z.of_nat n))%Z at 1 by lia.
  rewrite seqZ_app by lia.
  apply drop_app_length'. rewrite length_seqZ. lia.
Qed.

(** Appending then trimming drops from the front only, and keeps the new
    record last. *)
Lemma trim_snoc (h : list event) x :
  trim (h ++ [x]) = drop (length h + 1 - _HISTORY_SIZE) h ++ [x].
Proof.
  unfold trim, last_n. rewrite length_app. cbn [length].
  unfold _HISTORY_SIZE. case_bool_decide as Hlen.
  - by rewrite drop_app_le by lia.
  - replace (length h + 1 - 200) with 0 by lia. done.
Qed.

Lemma offer_cap x que :
  maxsize que = 512%Z → (length (items que) ≤ 512)%nat →
  maxsize (offer x que) = 512%Z ∧ (length (items (offer x que)) ≤ 512)%nat.
Proof.
  intros Hmax Hlen. unfold offer, full. case_bool_decide as Hfull; [done|].
  cbn. rewrite length_app. cbn. split; [done|lia].
Qed.

Lemma lookup_deliver x subs (m : gmap nat Queue) q :
  NoDup subs →
  deliver x subs m !! q
  = if decide (q ∈ subs) then offer x <$> (m !! q) else m !! q.
Proof.
  intros Hnd. case_decide.
  - by apply lookup_deliver_in.
  - by apply lookup_deliver_notin.
Qed.

Lemma inv_initial : bus_inv initial.
Proof.
  split; cbn; try done.
  - apply NoDup_nil_2.
  - intros q Hq. by apply elem_of_nil in Hq.
Qed.

Lemma inv_push room t d w : bus_inv w → bus_inv (push room t d w).2.
Proof.
  intros [Hnext Hlen Hids Hnd Hlive Hcap].
  destruct (dumps_cases room d) as [[_ [j Hd]] | [_ [e Hd]]].
  2: { rewrite (push_raises _ _ _ _ _ Hd). by split. }
  rewrite (push_eq _ _ _ _ _ Hd Hlive). cbn.
  assert (Hlen' : length (trim (_history (_bus w) ++ [(_next_id (_bus w), t, j)]))
                  = Nat.min _HISTORY_SIZE (Z.to_nat (_next_id (_bus w) + 1 - 1))).
  { rewrite trim_snoc, length_app, length_drop. cbn [length].
    unfold _HISTORY_SIZE in *. lia. }
  split; cbn [_bus _next_id _history _subscribers queues].
  - lia.
  - exact Hlen'.
  - rewrite Hlen'. rewrite trim_snoc. unfold ids in *.
    rewrite fmap_app, fmap_drop, Hids, drop_seqZ by (unfold _HISTORY_SIZE; lia).
    cbn [fmap list_fmap eid fst].
    set (len := length (_history (_bus w))) in *.
    set (d' := len + 1 - _HISTORY_SIZE).
    assert (Hmin : Nat.min _HISTORY_SIZE (Z.to_nat (_next_id (_bus w) + 1 - 1))
                   = S (len - d')).
    { unfold d', _HISTORY_SIZE in *. lia. }
    rewrite Hmin, seqZ_S. f_equal.
    + f_equal; unfold d', _HISTORY_SIZE in *; lia.
    + f_equal. unfold d', _HISTORY_SIZE in *; lia.
  - done.
  - intros q Hq. rewrite lookup_deliver by done.
    rewrite decide_True by done. destruct (Hlive q Hq) as [que ->]. by eexists.
  - intros q que. rewrite lookup_deliver by done. case_decide.
    + intros Hq. apply fmap_Some in Hq as (que' & Hq' & ->).
      destruct (Hcap _ _ Hq'). by apply offer_cap.
    + apply Hcap.
Qed.

Lemma fresh_not_subscribed w :
  bus_inv w → fresh (dom (queues w)) ∉ _subscribers (_bus w).
Proof.
  intros Hinv Hin. apply (inv_live _ Hinv) in Hin.
  apply elem_of_dom in Hin. by apply is_fresh in Hin.
Qed.

Lemma history_short w : bus_inv w → (length (_history (_bus w)) ≤ 200)%nat.
Proof. intros Hinv. rewrite (inv_len _ Hinv). unfold _HISTORY_SIZE. lia. Qed.

Lemma inv_subscribe k w : bus_inv w → bus_inv (subscribe k w).2.
Proof.
  intros Hinv. pose proof (history_short _ Hinv) as Hshort.
  pose proof (fresh_not_subscribed _ Hinv) as Hfresh.
  destruct Hinv as [Hnext Hlen Hids Hnd Hlive Hcap].
  rewrite subscribe_eq by lia.
  split; cbn [snd _bus _next_id _history _subscribers queues]; try done.
  - apply NoDup_app. split_and!; [done| |apply NoDup_singleton].
    intros q Hq ->%list_elem_of_singleton. contradiction.
  - intros q Hq. rewrite lookup_insert. case_decide; [by eexists|].
    apply Hlive. apply elem_of_app in Hq as [Hq|Hq%list_elem_of_singleton]; [done|].
    congruence.
  - intros q que. rewrite lookup_insert. case_decide.
    + intros [= <-]. cbn. split; [done|].
      pose proof (length_filter (λ e, (eid e > k)%Z) (_history (_bus w))). lia.
    + apply Hcap.
Qed.

Lemma inv_unsubscribe q w : bus_inv w → bus_inv (unsubscribe q w).2.
Proof.
  intros [Hnext Hlen Hids Hnd Hlive Hcap]. rewrite unsubscribe_eq.
  split; cbn [snd _bus _next_id _history _subscribers queues]; try done.
  - destruct (list_remove q _) as [l|] eqn:Hl; [|done].
    by destruct (list_remove_Some _ _ _ Hnd Hl).
  - intros r. destruct (list_remove q _) as [l|] eqn:Hl; cbn; [|apply Hlive].
    destruct (list_remove_Some _ _ _ Hnd Hl) as (_ & _ & Hiff).
    rewrite Hiff. intros [? _]. by apply Hlive.
Qed.

Lemma inv_get r w : bus_inv w → bus_inv (get r w).2.
Proof.
  intros Hinv. rewrite get_eq.
  destruct (queues w !! r) as [que|] eqn:Hr; [|done].
  destruct (items que) as [|x rest] eqn:Hits; [done|].
  destruct Hinv as [Hnext Hlen Hids Hnd Hlive Hcap].
  split; cbn [snd _bus _next_id _history _subscribers queues]; try done.
  - intros q Hq. rewrite lookup_insert. case_decide; [by eexists|by apply Hlive].
  - intros q que'. rewrite lookup_insert. case_decide.
    + intros [= <-]. cbn. destruct (Hcap _ _ Hr) as [? Hl].
      rewrite Hits in Hl. cbn in Hl. split; [done|lia].
    + apply Hcap.
Qed.

Lemma inv_exec c w : bus_inv w → bus_inv (exec c w).
Proof.
  destruct c; cbn.
  - apply inv_push.
  - apply inv_subscribe.
  - apply inv_unsubscribe.
  - apply inv_get.
Qed.

Lemma run_cons c cs w : run (c :: cs) w = run cs (exec c w).
Proof. done. Qed.

Lemma run_app cs cs' w : run (cs ++ cs') w = run cs' (run cs w).
Proof. apply foldl_app. Qed.

Lemma inv_run cs w : bus_inv w → bus_inv (run cs w).
Proof.
  revert w. induction cs as [|c cs IH]; intros w Hinv; [done|].
  rewrite run_cons. by apply IH, inv_exec.
Qed.

Lemma reachable_inv w : reachable w → bus_inv w.
Proof. intros [cs ->]. apply inv_run, inv_initial. Qed.

Lemma reachable_run cs w : reachable w → reachable (run cs w).
Proof. intros [cs0 ->]. exists (cs0 ++ cs). by rewrite run_app. Qed.

End BusInvariant.

(** ** Runs of the bus *)

Section BusRuns.

Implicit Types (w : World) (q r : qref) (x : event) (cs : list call).

Lemma last_n_short {A} n (l : list A) : (length l ≤ n)%nat → last_n n l = l.
Proof. intros Hl. unfold last_n. by replace (length l - n) with 0 by lia. Qed.

Lemma last_n_app_last_n {A} n (l l' : list A) :
  last_n n (last_n n l ++ l') = last_n n (l ++ l').
Proof.
  unfold last_n. rewrite !drop_app, drop_drop, !length_app, !length_drop.
  f_equal; f_equal; lia.
Qed.

Lemma trim_last_n (h : list event) : trim h = last_n _HISTORY_SIZE h.
Proof.
  unfold trim. case_bool_decide; [done|]. symmetry. apply last_n_short. lia.
Qed.

Lemma stamped_ok room t d j w :
  bus_inv w → dumps room d = Ok j → stamped room t d w = Some (_next_id (_bus w), t, j).
Proof.
  intros Hinv Hd. unfold stamped.
  rewrite (push_eq _ _ _ _ _ Hd (inv_live _ Hinv)). cbn.
  rewrite trim_snoc. apply last_snoc.
Qed.

Lemma stamped_raises room t d e w : dumps room d = Raise e → stamped room t d w = None.
Proof. intros Hd. unfold stamped. by rewrite (push_raises _ _ _ _ _ Hd). Qed.

(** Only [push] touches the history and the counter. *)
Lemma exec_frame c w :
  bus_inv w → (∀ room t d, c ≠ CallPush room t d) →
  _history (_bus (exec c w)) = _history (_bus w)
  ∧ _next_id (_bus (exec c w)) = _next_id (_bus w).
Proof.
  intros Hinv Hc. destruct c as [room t d|k|q|q]; cbn [exec].
  - by destruct (Hc room t d).
  - pose proof (history_short _ Hinv). by rewrite subscribe_eq by lia.
  - by rewrite unsubscribe_eq.
  - rewrite get_eq. destruct (queues w !! q) as [que|]; [|done].
    by destruct (items que).
Qed.

(** The history is the tail of everything published; the counter and the
    published ids advance together. *)
Lemma run_published cs w :
  bus_inv w →
  _history (_bus (run cs w))
    = last_n _HISTORY_SIZE (_history (_bus w) ++ published cs w)
  ∧ _next_id (_bus (run cs w))
    = (_next_id (_bus w) + Z.of_nat (length (published cs w)))%Z
  ∧ ids_assigned cs w
    = seqZ (_next_id (_bus w)) (Z.of_nat (length (published cs w)))
  ∧ pushes_returned cs w = length (published cs w).
Proof.
  unfold ids_assigned.
  revert w. induction cs as [|c cs IH]; intros w Hinv.
  { cbn. rewrite app_nil_r, Z.add_0_r.
    rewrite last_n_short; [done|]. rewrite (inv_len _ Hinv). lia. }
  rewrite run_cons. cbn [published pushes_returned].
  destruct (IH (exec c w) (inv_exec c w Hinv)) as (IHh & IHn & IHi & IHp).
  rewrite IHh, IHn, IHp, fmap_app, IHi. clear IH IHh IHn IHi IHp.
  destruct c as [room t d|k|q|q].
  - destruct (dumps_cases room d) as [[_ [j Hd]] | [_ [e Hd]]].
    + rewrite (stamped_ok _ _ _ _ _ Hinv Hd). cbn [exec].
      unfold push_event.
      rewrite (push_eq _ _ _ _ _ Hd (inv_live _ Hinv)).
      cbn [snd _bus _history _next_id option_list].
      rewrite trim_last_n, last_n_app_last_n, <- app_assoc.
      unfold option_list. cbn [option_rect app length fmap list_fmap].
      split_and!; [done|lia| |done].
      rewrite (seqZ_cons _ (Z.of_nat (S _))) by lia.
      cbn [eid fst]. do 2 f_equal. lia.
    + rewrite (stamped_raises _ _ _ _ _ Hd). cbn [exec].
      unfold push_event. rewrite (push_raises _ _ _ _ _ Hd). done.
  - by destruct (exec_frame (CallSubscribe k) w Hinv) as [-> ->].
  - by destruct (exec_frame (CallUnsubscribe q) w Hinv) as [-> ->].
  - by destruct (exec_frame (CallGet q) w Hinv) as [-> ->].
Qed.

End BusRuns.

(** ** Statements about the bus *)

Section BusClaims.

Implicit Types (w : World) (q r : qref) (x : event) (cs : list call).

Lemma head_ids (h : list event) : eid <$> head h = head (ids h).
Proof. by destruct h. Qed.

(** The records a cursor selects from a gap-free history are gap-free. *)
Lemma ids_filter_after (k : Z) (h : list event) (m : Z) :
  ids h = seqZ m (Z.of_nat (length h)) →
  ids (filter (λ e, (eid e > k)%Z) h)
  = seqZ (Z.max m (k + 1)) (m + Z.of_nat (length h) - Z.max m (k + 1)).
Proof.
  revert m. induction h as [|e h IH]; intros m Hids.
  { cbn. rewrite seqZ_nil; [done|lia]. }
  cbn [length] in Hids. rewrite seqZ_cons in Hids by lia.
  unfold ids in Hids. cbn [fmap list_fmap] in Hids.
  injection Hids as He Hh.
  replace (Z.pred (Z.of_nat (S (length h)))) with (Z.of_nat (length h)) in Hh by lia.
  specialize (IH _ Hh). rewrite filter_cons. cbn [length]. case_decide as Hk.
  - unfold ids in *. cbn [fmap list_fmap]. rewrite IH.
    rewrite (seqZ_cons (Z.max m (k + 1))) by lia.
    f_equal; [lia|]. f_equal; lia.
  - rewrite IH. f_equal; lia.
Qed.

Lemma subscribed_exec c q w :
  bus_inv w → q ∈ _subscribers (_bus w) → c ≠ CallUnsubscribe q →
  q ∈ _subscribers (_bus (exec c w)).
Proof.
  intros Hinv Hq Hc. destruct c as [room t d|k|q'|q']; cbn [exec].
  - unfold push_event. destruct (dumps_cases room d) as [[_ [j Hd]] | [_ [e Hd]]].
    + by rewrite (push_eq _ _ _ _ _ Hd (inv_live _ Hinv)).
    + by rewrite (push_raises _ _ _ _ _ Hd).
  - pose proof (history_short _ Hinv). rewrite subscribe_eq by lia. cbn.
    apply elem_of_app. by left.
  - rewrite unsubscribe_eq. cbn.
    destruct (list_remove q' _) as [l|] eqn:Hl; [|done]. cbn.
    destruct (list_remove_Some _ _ _ (inv_nodup _ Hinv) Hl) as (_ & _ & Hiff).
    apply Hiff. split; [done|]. congruence.
  - rewrite get_eq. destruct (queues w !! q') as [que|]; [|done].
    by destruct (items que).
Qed.

Lemma subscribed_run cs q w :
  bus_inv w → q ∈ _subscribers (_bus w) → CallUnsubscribe q ∉ cs →
  q ∈ _subscribers (_bus (run cs w)).
Proof.
  revert w. induction cs as [|c cs IH]; intros w Hinv Hq Hcs; [done|].
  apply not_elem_of_cons in Hcs as [Hc Hcs]. rewrite run_cons.
  apply IH; [by apply inv_exec| |done]. apply subscribed_exec; congruence.
Qed.

(** What one publish does to a registered queue. *)
Lemma push_offers room t d j q que w :
  bus_inv w → dumps room d = Ok j →
  q ∈ _subscribers (_bus w) → queues w !! q = Some que →
  queues (push room t d w).2 !! q = Some (offer (_next_id (_bus w), t, j) que).
Proof.
  intros Hinv Hd Hq Hque.
  rewrite (push_eq _ _ _ _ _ Hd (inv_live _ Hinv)). cbn.
  rewrite lookup_deliver_in, Hque; [done|apply Hinv|done].
Qed.

(** C1, as the code has it.  In every reachable state and for every
    cursor [k], [subscribe k] returns a new queue of capacity 512 that
    holds exactly the retained records with id above [k], in history
    order: consecutive ascending ids, so no duplicate and no gap.  The
    queue is registered once, at the end of the registry.  While it stays
    registered, each later publish is appended to it exactly once if it
    holds fewer than 512 items, and leaves it unchanged if it is full. *)
Theorem subscribe_replays_then_follows w (k : Z) :
  reachable w →
  ∃ q w',
    subscribe k w = (Ok q, w')
    ∧ queues w !! q = None
    ∧ (q ∉ _subscribers (_bus w))
    ∧ queues w' !! q
      = Some {| maxsize := 512;
                items := filter (λ e, (eid e > k)%Z) (_history (_bus w)) |}
    ∧ (let oldest := (_next_id (_bus w) - Z.of_nat (length (_history (_bus w))))%Z in
       ids (filter (λ e, (eid e > k)%Z) (_history (_bus w)))
       = seqZ (Z.max oldest (k + 1))
              (_next_id (_bus w) - Z.max oldest (k + 1)))
    ∧ _subscribers (_bus w') = _subscribers (_bus w) ++ [q]
    ∧ _history (_bus w') = _history (_bus w)
    ∧ _next_id (_bus w') = _next_id (_bus w)
    ∧ ∀ cs room t d j,
        (CallUnsubscribe q ∉ cs) → dumps room d = Ok j →
        ∃ que,
          queues (run cs w') !! q = Some que
          ∧ queues (push room t d (run cs w')).2 !! q
            = Some (if bool_decide (length (items que) < 512)%nat
                    then enqueue (_next_id (_bus (run cs w')), t, j) que
                    else que).
Proof.
  intros Hreach. pose proof (reachable_inv _ Hreach) as Hinv.
  pose proof (history_short _ Hinv) as Hshort.
  pose proof (inv_subscribe k w Hinv) as Hinv'.
  rewrite subscribe_eq in Hinv' |- * by lia. cbn [snd] in Hinv'.
  set (q := fresh (dom (queues w))) in *.
  eexists q, _. split; [done|]. cbn [_bus queues _subscribers _history _next_id].
  split_and!; try done.
  - apply not_elem_of_dom, is_fresh.
  - by apply fresh_not_subscribed.
  - apply lookup_insert_eq.
  - rewrite (ids_filter_after k _ _ (inv_ids _ Hinv)). f_equal; lia.
  - intros cs room t d j Hcs Hd.
    pose proof (inv_run cs _ Hinv') as Hinv2.
    assert (Hq : q ∈ _subscribers (_bus (run cs
              {| _bus := {| _subscribers := _subscribers (_bus w) ++ [q];
                            _history := _history (_bus w);
                            _next_id := _next_id (_bus w) |};
                 queues := <[q := {| maxsize := 512;
                                     items := filter (λ e, (eid e > k)%Z)
                                                (_history (_bus w)) |}]>
                             (queues w) |}))).
    { apply subscribed_run; [done| |done]. cbn. apply elem_of_app. right.
      by apply list_elem_of_singleton. }
    destruct (inv_live _ Hinv2 _ Hq) as [que Hque].
    exists que. split; [done|].
    rewrite (push_offers _ _ _ _ _ _ _ Hinv2 Hd Hq Hque).
    destruct (inv_cap _ Hinv2 _ _ Hque) as [Hmax Hlen].
    unfold offer, full. rewrite Hmax.
    repeat case_bool_decide; try done; lia.
Qed.

(** C2.  Along every run of a fresh bus the history never holds more than
    200 records, and it is exactly the last 200 of the records published
    so far.  Once more than 200 publishes have returned it holds 200
    records with the consecutive ids total - 200 + 1 .. total, the oldest
    first.  A publish removes records from the front only, and retained
    ids stay in ascending order. *)
Theorem history_bounded cs :
  let w := run cs initial in
  let total := pushes_returned cs initial in
  let h := _history (_bus w) in
  (length h ≤ _HISTORY_SIZE)%nat
  ∧ h = last_n _HISTORY_SIZE (published cs initial)
  ∧ ((_HISTORY_SIZE < total)%nat →
     length h = _HISTORY_SIZE
     ∧ ids h = seqZ (Z.of_nat total - Z.of_nat _HISTORY_SIZE + 1)
                    (Z.of_nat _HISTORY_SIZE)
     ∧ eid <$> head h
       = Some (Z.of_nat total - Z.of_nat _HISTORY_SIZE + 1)%Z)
  ∧ (∀ room t d,
       _history (_bus (push room t d w).2)
       `suffix_of` h ++ option_list (stamped room t d w))
  ∧ (∀ i j a b, (i < j)%nat →
       ids h !! i = Some a → ids h !! j = Some b → (a < b)%Z).
Proof.
  intros w total h.
  pose proof (inv_run cs _ inv_initial) as Hinv. fold w in Hinv.
  destruct (run_published cs initial inv_initial) as (Hh & Hn & _ & Hp).
  fold w total in Hh, Hn, Hp. cbn in Hh, Hn. fold h in Hh.
  pose proof (inv_len _ Hinv) as Hlen. pose proof (inv_ids _ Hinv) as Hids.
  fold h in Hlen, Hids. rewrite Hn, <- Hp in Hlen, Hids.
  split_and!.
  - unfold _HISTORY_SIZE in *. lia.
  - done.
  - intros Hover.
    assert (Hl : length h = _HISTORY_SIZE) by (unfold _HISTORY_SIZE in *; lia).
    rewrite Hl in Hids. split_and!; [done| |].
    + rewrite Hids. f_equal. lia.
    + rewrite head_ids, Hids, head_lookup.
      rewrite lookup_seqZ_lt by (unfold _HISTORY_SIZE; lia). f_equal. lia.
  - intros room t d. destruct (dumps_cases room d) as [[_ [j Hd]] | [_ [e Hd]]].
    + rewrite (stamped_ok _ _ _ _ _ Hinv Hd).
      rewrite (push_eq _ _ _ _ _ Hd (inv_live _ Hinv)). cbn. fold h.
      rewrite trim_last_n. apply suffix_drop.
    + rewrite (stamped_raises _ _ _ _ _ Hd), (push_raises _ _ _ _ _ Hd).
      cbn. by rewrite app_nil_r.
  - intros i j a b Hij. rewrite Hids.
    intros [-> _]%lookup_seqZ [-> _]%lookup_seqZ. lia.
Qed.

(** C3.  On one bus the ids handed out are 1, 2, 3, ... in publish
    order: the publish that returns as the k-th gets id k, whatever its
    type and payload (the counter of the bus decides, the caller passes
    no id), a publish that raises consumes none, and no id repeats,
    trimming or not. *)
Theorem ids_gap_free cs :
  let total := pushes_returned cs initial in
  ids_assigned cs initial = seqZ 1 (Z.of_nat total)
  ∧ (∀ k, (k < total)%nat →
       ids_assigned cs initial !! k = Some (Z.of_nat k + 1)%Z)
  ∧ NoDup (ids_assigned cs initial)
  ∧ _next_id (_bus (run cs initial)) = (Z.of_nat total + 1)%Z
  ∧ (∀ room t d e, stamped room t d (run cs initial) = Some e →
       eid e = (Z.of_nat total + 1)%Z).
Proof.
  intros total.
  destruct (run_published cs initial inv_initial) as (_ & Hn & Hi & Hp).
  fold total in Hp. rewrite <- Hp in Hn, Hi. cbn in Hn, Hi.
  split_and!.
  - done.
  - intros k Hk. rewrite Hi, lookup_seqZ_lt by lia. f_equal. lia.
  - rewrite Hi. apply NoDup_seqZ.
  - lia.
  - intros room t d e. pose proof (inv_run cs _ inv_initial) as Hinv.
    destruct (dumps_cases room d) as [[_ [j Hd]] | [_ [e' Hd]]].
    + rewrite (stamped_ok _ _ _ _ _ Hinv Hd). intros [= <-]. cbn. lia.
    + by rewrite (stamped_raises _ _ _ _ _ Hd).
Qed.

(** C4, as the code has it.  For every payload that [json.dumps] with
    [default=str] accepts where it is called ([serializable]: dict keys,
    at every depth, that are str, int, float, bool or None, foreign
    objects with a [str] that returns, ints within the digit limit,
    nesting within what the interpreter allows), [push_event] returns to
    its caller: the objects json cannot encode are serialized as their
    [str] text. *)
Theorem push_event_returns_on_serializable w room t d :
  reachable w → serializable room d = true →
  ∃ j w', dumps room d = Ok j ∧ push_event room t d w = (Ok tt, w')
          ∧ last (_history (_bus w')) = Some (_next_id (_bus w), t, j).
Proof.
  intros Hreach Hser. pose proof (reachable_inv _ Hreach) as Hinv.
  apply dumps_serializable in Hser as [j Hd].
  exists j. eexists. split; [done|]. unfold push_event.
  rewrite (push_eq _ _ _ _ _ Hd (inv_live _ Hinv)). split; [done|].
  cbn. rewrite trim_snoc. apply last_snoc.
Qed.

(** C5.  When some registered queue already holds 512 items, a publish
    still returns (it neither raises nor waits): the record is appended
    to the history, every registered queue with fewer than 512 items gets
    it appended, and exactly the full ones are left as they were. *)
Theorem push_skips_full_mailboxes w room t d j :
  reachable w → dumps room d = Ok j →
  (∃ q que, q ∈ _subscribers (_bus w) ∧ queues w !! q = Some que
            ∧ length (items que) = 512%nat) →
  let x := (_next_id (_bus w), t, j) in
  ∃ w',
    push_event room t d w = (Ok tt, w')
    ∧ last (_history (_bus w')) = Some x
    ∧ _subscribers (_bus w') = _subscribers (_bus w)
    ∧ ∀ q, q ∈ _subscribers (_bus w) →
        ∃ que,
          queues w !! q = Some que
          ∧ (full que = true ↔ length (items que) = 512%nat)
          ∧ queues w' !! q
            = Some (if bool_decide (length (items que) = 512%nat)
                    then que else enqueue x que).
Proof.
  intros Hreach Hd _ x. pose proof (reachable_inv _ Hreach) as Hinv.
  eexists. unfold push_event.
  rewrite (push_eq _ _ _ _ _ Hd (inv_live _ Hinv)). split; [done|].
  cbn [_bus queues _subscribers _history]. split_and!.
  - rewrite trim_snoc. apply last_snoc.
  - done.
  - intros q Hq. destruct (inv_live _ Hinv _ Hq) as [que Hque].
    exists que. destruct (inv_cap _ Hinv _ _ Hque) as [Hmax Hlen].
    assert (Hfull : full que = true ↔ length (items que) = 512%nat).
    { unfold full. rewrite bool_decide_eq_true, Hmax. lia. }
    split_and!; [done..|].
    rewrite lookup_deliver_in, Hque by (done || apply Hinv). cbn.
    unfold offer. f_equal. case_bool_decide as H512.
    + by rewrite (proj2 Hfull).
    + destruct (full que); [|done]. by destruct H512; apply Hfull.
Qed.

End BusClaims.

(** ** The bus on concrete runs *)

Section BusScenarios.

Lemma reachable_by cs : reachable (run cs initial).
Proof. by exists cs. Qed.

Lemma subscribe_replays_then_follows_witness :
  ∃ q w', subscribe 1 (run three_pushes initial) = (Ok q, w')
          ∧ ids <$> (items <$> queues w' !! q) = Some [2; 3]%Z.
Proof.
  destruct (subscribe_replays_then_follows (run three_pushes initial) 1
              (reachable_by three_pushes))
    as (q & w' & Hsub & _ & _ & Hq & _).
  exists q, w'. split; [exact Hsub|]. rewrite Hq. reflexivity.
Defined.

(** C1 as stated fails: a registered queue that is not drained fills up,
    and the next publish is not delivered to it. *)
Lemma subscribe_live_delivery_is_lossy :
  ¬ (∀ w (k : Z) q w' cs room t d j,
       reachable w → subscribe k w = (Ok q, w') →
       (CallUnsubscribe q ∉ cs) → dumps room d = Ok j →
       ∃ que,
         queues (run cs w') !! q = Some que
         ∧ queues (push room t d (run cs w')).2 !! q
           = Some (enqueue (_next_id (_bus (run cs w')), t, j) que)).
Proof.
  intros Hclaim.
  destruct (Hclaim initial 0%Z 0 (subscribe 0 initial).2 (flood 512)
              plenty "status" PyNone JNull) as (que & Hque & Hpush).
  - apply (reachable_by []).
  - reflexivity.
  - intros Hin. by apply elem_of_replicate_inv in Hin.
  - reflexivity.
  - match type of Hque with ?l = _ =>
      assert (Hl : (λ q, length (items q)) <$> l = Some 512)
        by (vm_compute; reflexivity)
    end.
    match type of Hpush with ?l = _ =>
      assert (Hl' : (λ q, length (items q)) <$> l = Some 512)
        by (vm_compute; reflexivity)
    end.
    rewrite Hque in Hl. rewrite Hpush in Hl'. clear Hque Hpush.
    match type of Hl' with context [enqueue ?x _] =>
      set (ev := x) in Hl'; clearbody ev
    end.
    destruct que as [mx its]. cbn in Hl, Hl'.
    rewrite length_app in Hl'. cbn in Hl'.
    injection Hl as Hl. injection Hl' as Hl'. lia.
Qed.

Lemma history_bounded_witness :
  length (_history (_bus (run (flood 203) initial))) = 200
  ∧ eid <$> head (_history (_bus (run (flood 203) initial))) = Some 4%Z.
Proof.
  destruct (history_bounded (flood 203)) as (_ & _ & Hover & _).
  destruct Hover as (Hlen & _ & Hhead).
  - vm_compute. lia.
  - split; [exact Hlen | exact Hhead].
Defined.

Lemma ids_gap_free_witness :
  ids_assigned (CallPush plenty "status" tuple_keyed :: three_pushes) initial !! 2
  = Some 3%Z.
Proof.
  destruct (ids_gap_free (CallPush plenty "status" tuple_keyed :: three_pushes))
    as (_ & Hkth & _).
  apply (Hkth 2). vm_compute. lia.
Defined.

(** C4 as stated fails: a dict keyed by a tuple makes [json.dumps] raise
    TypeError, and nothing between it and the caller catches it. *)
Lemma push_event_raises_on_tuple_key :
  push_event plenty "status" tuple_keyed initial = (Raise TypeError, initial)
  ∧ ¬ (∀ room t d w, reachable w → ∃ w', push_event room t d w = (Ok tt, w')).
Proof.
  split; [reflexivity|]. intros Hclaim.
  destruct (Hclaim plenty "status" tuple_keyed initial (reachable_by []))
    as [w' Hw'].
  discriminate Hw'.
Qed.

(** The fallback does not cover an int beyond the digit limit or a
    nesting deeper than the interpreter allows either. *)
Lemma push_event_raises_on_huge_int :
  push_event plenty "status" (PyDict [(PyStr "n", PyInt (10 ^ 4300))]) initial
  = (Raise ValueError, initial).
Proof. vm_compute. reflexivity. Qed.

Lemma push_event_raises_on_deep_nesting :
  push_event 2 "status" (PyDict [(PyStr "a", PyList [PyList []])]) initial
  = (Raise RecursionError, initial).
Proof. reflexivity. Qed.

Lemma push_event_returns_on_serializable_witness :
  ∃ j w',
    dumps plenty (PyDict [(PyStr "at", PyObject "datetime" (Some "2024-01-01"))]) = Ok j
    ∧ push_event plenty "status"
        (PyDict [(PyStr "at", PyObject "datetime" (Some "2024-01-01"))])
        (run three_pushes initial) = (Ok tt, w')
    ∧ last (_history (_bus w'))
      = Some (_next_id (_bus (run three_pushes initial)), "status", j).
Proof.
  apply (push_event_returns_on_serializable (run three_pushes initial) plenty).
  - apply reachable_by.
  - reflexivity.
Defined.

Lemma push_skips_full_mailboxes_witness :
  ∃ w', push_event plenty "status" PyNone (run stalled_client initial) = (Ok tt, w')
        ∧ last (_history (_bus w')) = Some (513%Z, "status", JNull).
Proof.
  destruct (push_skips_full_mailboxes (run stalled_client initial)
              plenty "status" PyNone JNull) as (w' & Hpush & Hlast & _).
  - apply reachable_by.
  - reflexivity.
  - exists 0. eexists. split_and!.
    + apply (bool_decide_unpack _). vm_compute. exact I.
    + vm_compute. reflexivity.
    + vm_compute. reflexivity.
  - exists w'. split; [exact Hpush|]. rewrite Hlast. vm_compute. reflexivity.
Defined.

End BusScenarios.

(** ** The HTTP handler *)

Section HandlerClaims.

Implicit Types (w : World) (c : Conn) (sub : qref) (path : string).

Lemma prefix_spec (p s : string) :
  String.prefix p s = true ↔ ∃ rest, s = (p ++ rest)%string.
Proof.
  revert s. induction p as [|a p IH]; intros s.
  - split; [intros _; by exists s | by destruct s].
  - destruct s as [|b s]; cbn; [split; [done | by intros [rest [=]]]|].
    destruct (Ascii.ascii_dec a b) as [->|Hab].
    + rewrite IH. split; intros [rest Hrest]; exists rest.
      * by subst.
      * change (String b s = String b (p +:+ rest)) in Hrest. congruence.
    + split; [done|]. intros [rest Hrest].
      change (String b s = String a (p +:+ rest)) in Hrest. congruence.
Qed.

Lemma eqb_spec (s1 s2 : string) : String.eqb s1 s2 = true ↔ s1 = s2.
Proof. apply String.eqb_eq. Qed.

(** C8, as the code has it.  A GET path gets the not-found response
    exactly when it is neither "/" nor "/index.html" and does not begin
    with "/events"; every path that begins with "/events" is served the
    event stream, and only "/" and "/index.html" are served the page. *)
Theorem do_GET_routes_by_prefix path :
  (do_GET path = NotFound ↔
     path ≠ "/" ∧ path ≠ "/index.html"
     ∧ ¬ ∃ rest, path = ("/events" ++ rest)%string)
  ∧ (do_GET path = ServeSse ↔ ∃ rest, path = ("/events" ++ rest)%string)
  ∧ (do_GET path = ServeHtml ↔ path = "/" ∨ path = "/index.html").
Proof.
  unfold do_GET.
  destruct (String.eqb path "/") eqn:H1; [apply eqb_spec in H1|];
    [subst; cbn; split_and!; split; try done; naive_solver|].
  destruct (String.eqb path "/index.html") eqn:H2; [apply eqb_spec in H2|];
    [subst; cbn; split_and!; split; try done; naive_solver|].
  apply String.eqb_neq in H1, H2. cbn [orb].
  destruct (String.prefix "/events" path) eqn:H3.
  - apply prefix_spec in H3. split_and!; split; try done; naive_solver.
  - assert (¬ ∃ rest, path = ("/events" ++ rest)%string) as H3'.
    { intros H. apply prefix_spec in H. congruence. }
    split_and!; split; try done; naive_solver.
Qed.

Lemma do_GET_routes_by_prefix_witness :
  do_GET "/events?last_event_id=3" = ServeSse ∧ do_GET "/favicon.ico" = NotFound.
Proof.
  split.
  - apply (proj1 (proj2 (do_GET_routes_by_prefix "/events?last_event_id=3"))).
    by exists "?last_event_id=3".
  - apply (proj1 (do_GET_routes_by_prefix "/favicon.ico")).
    split_and!; [done..|]. intros [rest [=]].
Defined.

(** C8 as stated fails: "/eventsfoo" is neither the page nor the
    endpoint [/events[?query]], yet it is served the stream. *)
Lemma do_GET_serves_other_event_paths :
  ¬ (∀ path,
       spec_static_page path = false →
       spec_event_stream_endpoint path = false →
       do_GET path = NotFound).
Proof.
  intros Hclaim. specialize (Hclaim "/eventsfoo" eq_refl eq_refl).
  discriminate Hclaim.
Qed.

Lemma on_bus_eq {A} (m : M World A) c :
  on_bus m c = ((m (world c)).1, {| world := (m (world c)).2; wfile := wfile c |}).
Proof. unfold on_bus. by destruct (m (world c)). Qed.

(** Building the frame of a record gives the frame with its id, or fails
    with a json error. *)
Lemma event_frame_cases room (x : event) :
  (∃ payload, event_frame room x = Ok (DataFrame (eid x) payload))
  ∨ json_error (event_frame room x).
Proof.
  unfold event_frame, event_payload, json_error.
  destruct (loads_cases room x.2) as [(o & -> & Ho) | [-> | ->]];
    cbn [rbind]; eauto.
  destruct (dumps_native room
              (PyDict [(PyStr "type", PyStr x.1.2); (PyStr "data", o)]))
    as [(j & ->) | [-> | ->]]; cbn [rbind]; eauto.
  { cbn. by rewrite Ho. }
  destruct (int_repr_cases (eid x)) as [[_ ->] | [_ ->]]; cbn [rbind]; eauto.
Qed.

(** One pass of the loop never waits, and touches the bus through
    [get] only. *)
Lemma body_cases room sub o c :
  (body room sub o c).1 ≠ Blocked
  ∧ (world (body room sub o c).2 = world c
     ∨ world (body room sub o c).2 = (get sub (world c)).2).
Proof.
  unfold body, try_except, bind, lift. rewrite on_bus_eq, get_eq.
  destruct (queues (world c) !! sub) as [que|]; [|by auto].
  destruct (items que) as [|x rest]; cbn.
  - destruct o as [|[]]; cbn; auto.
  - destruct (event_frame_cases room x) as [[p ->] | [-> | ->]];
      destruct o as [|[]]; cbn; auto.
Qed.

Lemma body_inv room sub o c : bus_inv (world c) → bus_inv (world (body room sub o c).2).
Proof.
  intros Hinv. destruct (body_cases room sub o c) as [_ [-> | ->]]; [done|].
  by apply inv_get.
Qed.

Lemma loop_inv room sub sched c :
  bus_inv (world c) →
  (loop room sub sched c).1 ≠ Blocked ∧ bus_inv (world (loop room sub sched c).2).
Proof.
  revert c. induction sched as [|[o|call] sched IH]; intros c Hinv; [done|..].
  - cbn [loop]. unfold bind.
    pose proof (body_inv room sub o c Hinv) as Hinv'.
    destruct (body_cases room sub o c) as [Hnb _].
    destruct (body room sub o c) as [[[]|e|] c1]; cbn in *; try done.
    by apply IH.
  - cbn [loop]. unfold bind. rewrite on_bus_eq. cbn.
    apply IH. cbn. by apply inv_exec.
Qed.

(** A failed write ends the loop, at the latest in the pass where it
    happens. *)
Lemma body_fails_exits room sub e c :
  (body room sub (WriteFails e) c).1 ≠ Ok Continue.
Proof.
  unfold body, try_except, bind, lift. rewrite on_bus_eq, get_eq.
  destruct (queues (world c) !! sub) as [que|]; [|done].
  destruct (items que) as [|x rest]; [destruct e; cbn; done|]. cbn.
  destruct (event_frame_cases room x) as [[p ->] | [-> | ->]];
    destruct e; cbn; done.
Qed.

Lemma loop_fails_exits room sub sched1 e sched2 c :
  (loop room sub (sched1 ++ Pass (WriteFails e) :: sched2) c).1 ≠ Ok None.
Proof.
  revert c. induction sched1 as [|[o|call] sched1 IH]; intros c.
  - cbn [app loop]. unfold bind.
    pose proof (body_fails_exits room sub e c) as Hb.
    destruct (body room sub (WriteFails e) c) as [[[]|e'|] c1]; cbn in *; done.
  - cbn [app loop]. unfold bind.
    destruct (body room sub o c) as [[[]|e'|] c1]; cbn; try done; apply IH.
  - cbn [app loop]. unfold bind. rewrite on_bus_eq. cbn. apply IH.
Qed.

Lemma unsubscribe_removes sub w :
  bus_inv w → sub ∉ _subscribers (_bus (unsubscribe sub w).2).
Proof.
  intros Hinv. rewrite unsubscribe_eq. cbn.
  destruct (list_remove sub _) as [l|] eqn:Hl; cbn.
  - by destruct (list_remove_Some _ _ _ (inv_nodup _ Hinv) Hl) as (_ & ? & _).
  - by apply list_remove_None.
Qed.

(** C9.  Whenever [_serve_sse] is left (by [break] after a broken pipe or
    a connection reset, or by any other exception), [unsubscribe] has run
    on the queue that [subscribe] returned to this handler, and that
    queue is no longer in the registry. *)
Theorem serve_sse_unsubscribes_on_exit room w fs (last_id : Z) sched r c' :
  reachable w →
  _serve_sse room last_id sched {| world := w; wfile := fs |} = (Exited r, c') →
  ∃ sub w1 c2,
    subscribe last_id w = (Ok sub, w1)
    ∧ sub ∈ _subscribers (_bus w1)
    ∧ (loop room sub sched {| world := w1; wfile := fs |}).2 = c2
    ∧ world c' = (unsubscribe sub (world c2)).2
    ∧ (sub ∉ _subscribers (_bus (world c')))
    ∧ (r = Ok tt ∨ ∃ e, r = Raise e).
Proof.
  intros Hreach. pose proof (reachable_inv _ Hreach) as Hinv.
  pose proof (history_short _ Hinv) as Hshort.
  pose proof (inv_subscribe last_id w Hinv) as Hinv1.
  unfold _serve_sse. rewrite on_bus_eq. cbn [world wfile].
  rewrite subscribe_eq in Hinv1 |- * by lia. cbn [fst snd] in Hinv1 |- *.
  set (sub := fresh (dom (queues w))) in *.
  match goal with |- context [loop room sub sched ?c] => set (c1 := c) end.
  destruct (loop_inv room sub sched c1 Hinv1) as [Hnb Hinv2].
  pose proof (unsubscribe_removes sub _ Hinv2) as Hgone.
  rewrite unsubscribe_eq in Hgone. cbn [snd] in Hgone.
  destruct (loop room sub sched c1) as [[[[]|]|e|] c2] eqn:Hloop;
    cbn [fst snd] in Hnb, Hinv2, Hgone; try done;
    rewrite on_bus_eq, unsubscribe_eq; cbn [fst snd];
    intros [= <- <-]; exists sub; eexists; exists c2;
    (split_and!;
     [ reflexivity
     | cbn; apply elem_of_app; right; by apply list_elem_of_singleton
     | exact (f_equal snd Hloop)
     | cbn; by rewrite unsubscribe_eq
     | exact Hgone
     | eauto ]).
Qed.

(** The loop does end when the client goes away: in every schedule, a
    pass whose write fails is the last one at the latest. *)
Lemma serve_sse_exits_on_write_failure room w fs (last_id : Z) sched1 e sched2 :
  reachable w →
  ∃ r c',
    _serve_sse room last_id (sched1 ++ Pass (WriteFails e) :: sched2)
      {| world := w; wfile := fs |} = (Exited r, c').
Proof.
  intros Hreach. pose proof (reachable_inv _ Hreach) as Hinv.
  pose proof (history_short _ Hinv) as Hshort.
  unfold _serve_sse. rewrite on_bus_eq. cbn [world wfile].
  rewrite subscribe_eq by lia. cbn [fst snd].
  match goal with |- context [loop ?room ?sub ?sched ?c] =>
    pose proof (loop_fails_exits room sub sched1 e sched2 c) as Hexit;
    destruct (loop room sub sched c) as [[[[]|]|e'|] c2]
  end; cbn in Hexit; try done.
  - rewrite on_bus_eq, unsubscribe_eq. cbn. eauto.
  - rewrite on_bus_eq, unsubscribe_eq. cbn. eauto.
  - eauto.
Qed.

Lemma serve_sse_unsubscribes_on_exit_witness :
  ∃ sub c',
    (_serve_sse plenty 1 client_hangs_up
       {| world := run three_pushes initial; wfile := [] |}).2 = c'
    ∧ sub ∉ _subscribers (_bus (world c')).
Proof.
  assert (Hrun : _serve_sse plenty 1 client_hangs_up
                   {| world := run three_pushes initial; wfile := [] |}
                 = (Exited (Ok tt),
                    (_serve_sse plenty 1 client_hangs_up
                       {| world := run three_pushes initial; wfile := [] |}).2))
    by (vm_compute; reflexivity).
  destruct (serve_sse_unsubscribes_on_exit _ _ _ _ _ _ _
              (reachable_by three_pushes) Hrun)
    as (sub & w1 & c2 & _ & _ & _ & _ & Hgone & _).
  exists sub. eexists. split; [reflexivity | exact Hgone].
Defined.

End HandlerClaims.

(** ** Server start-up *)

Section ServerClaims.

Implicit Types (s : Process) (busy : Z → bool) (ephemeral : option Z) (n : Z).

(** What a bind can answer. *)
Lemma server_bind_cases busy ephemeral s n :
  (∃ a, server_bind busy ephemeral s n = Ok a
        ∧ (0 ≤ n ≤ 65535)%Z ∧ (n ≠ 0%Z → a = n))
  ∨ (server_bind busy ephemeral s n = Raise OSError ∧ (0 ≤ n ≤ 65535)%Z)
  ∨ (server_bind busy ephemeral s n = Raise OverflowError
     ∧ ¬ (0 ≤ n ≤ 65535)%Z).
Proof.
  unfold server_bind. case_bool_decide as Hrange; [|by right; right].
  case_bool_decide as Hzero.
  - destruct ephemeral as [e|].
    + left. exists e. split; [done|]. split; [done|]. intros Hnz. by destruct Hnz.
    + right. left. by split.
  - destruct (port_taken busy s n).
    + right. left. by split.
    + left. exists n. split; [done|]. by split.
Qed.

(** A refused bind leaves its log entry and nothing else; the scan moves
    on. *)
Lemma scan_refused busy ephemeral n rest s :
  server_bind busy ephemeral s n = Raise OSError →
  scan busy ephemeral (n :: rest) s
  = scan busy ephemeral rest (log_bind (loopback n) s).
Proof.
  intros Hn. cbn [scan]. unfold try_except, bind at 1, _ThreadedHTTPServer.
  cbn [port loopback]. by rewrite Hn.
Qed.

Lemma scan_bound busy ephemeral n a rest s :
  server_bind busy ephemeral s n = Ok a →
  scan busy ephemeral (n :: rest) s
  = (Ok (Some n),
     {| _server := Some (loopback a); _port := n;
        listeners := listeners s ++ [loopback a];
        threads := threads s ++ [loopback a];
        timers := timers s ++ [("http://127.0.0.1:" ++ pretty n)%string];
        bind_log := bind_log s ++ [loopback n] |}).
Proof.
  intros Hn. cbn [scan]. unfold try_except, bind at 1, _ThreadedHTTPServer.
  cbn [port loopback]. by rewrite Hn.
Qed.

(** An exception that is not OSError leaves [start] at once. *)
Lemma scan_raises busy ephemeral n rest s :
  server_bind busy ephemeral s n = Raise OverflowError →
  scan busy ephemeral (n :: rest) s
  = (Raise OverflowError, log_bind (loopback n) s).
Proof.
  intros Hn. cbn [scan]. unfold try_except, bind at 1, _ThreadedHTTPServer.
  cbn [port loopback]. by rewrite Hn.
Qed.

(** Refused binds leave nothing behind but their log entries. *)
Lemma scan_all_refused busy ephemeral ports s :
  Forall (λ n, server_bind busy ephemeral s n = Raise OSError) ports →
  scan busy ephemeral ports s
  = (Ok None,
     {| _server := _server s; _port := _port s; listeners := listeners s;
        threads := threads s; timers := timers s;
        bind_log := bind_log s ++ (loopback <$> ports) |}).
Proof.
  revert s. induction ports as [|n ports IH]; intros s Hrefused.
  { cbn. unfold ret. rewrite app_nil_r. by destruct s. }
  apply Forall_cons in Hrefused as [Hn Hrest].
  rewrite (scan_refused _ _ _ _ _ Hn).
  rewrite (IH (log_bind (loopback n) s)) by exact Hrest.
  cbn. by rewrite <- app_assoc.
Qed.

(** The first port whose bind is not refused decides: a bind that
    succeeds starts the server there, after one refused attempt on each
    port before it. *)
Lemma scan_first_bound busy ephemeral pre n a post s :
  Forall (λ n, server_bind busy ephemeral s n = Raise OSError) pre →
  server_bind busy ephemeral s n = Ok a →
  scan busy ephemeral (pre ++ n :: post) s
  = (Ok (Some n),
     {| _server := Some (loopback a); _port := n;
        listeners := listeners s ++ [loopback a];
        threads := threads s ++ [loopback a];
        timers := timers s ++ [("http://127.0.0.1:" ++ pretty n)%string];
        bind_log := bind_log s ++ (loopback <$> pre ++ [n]) |}).
Proof.
  revert s. induction pre as [|m pre IH]; intros s Hrefused Hbound.
  { cbn [app]. by rewrite (scan_bound _ _ _ _ _ _ Hbound). }
  apply Forall_cons in Hrefused as [Hm Hrest].
  cbn [app]. rewrite (scan_refused _ _ _ _ _ Hm).
  rewrite (IH (log_bind (loopback m) s)) by (exact Hrest || exact Hbound).
  cbn. by rewrite <- app_assoc.
Qed.

Lemma scan_first_raises busy ephemeral pre n post s :
  Forall (λ n, server_bind busy ephemeral s n = Raise OSError) pre →
  server_bind busy ephemeral s n = Raise OverflowError →
  scan busy ephemeral (pre ++ n :: post) s
  = (Raise OverflowError,
     {| _server := _server s; _port := _port s; listeners := listeners s;
        threads := threads s; timers := timers s;
        bind_log := bind_log s ++ (loopback <$> pre ++ [n]) |}).
Proof.
  revert s. induction pre as [|m pre IH]; intros s Hrefused Hraises.
  { cbn [app]. by rewrite (scan_raises _ _ _ _ _ Hraises). }
  apply Forall_cons in Hrefused as [Hm Hrest].
  cbn [app]. rewrite (scan_refused _ _ _ _ _ Hm).
  rewrite (IH (log_bind (loopback m) s)) by (exact Hrest || exact Hraises).
  cbn. by rewrite <- app_assoc.
Qed.

Lemma ports_split busy ephemeral s ports :
  Forall (λ n, server_bind busy ephemeral s n = Raise OSError) ports
  ∨ ∃ pre n post,
      ports = pre ++ n :: post
      ∧ Forall (λ n, server_bind busy ephemeral s n = Raise OSError) pre
      ∧ server_bind busy ephemeral s n ≠ Raise OSError.
Proof.
  induction ports as [|m ports IH]; [by left|].
  destruct (decide (server_bind busy ephemeral s m = Raise OSError)) as [Hm|Hm].
  - destruct IH as [IH | (pre & n & post & -> & Hpre & Hn)].
    + left. by constructor.
    + right. exists (m :: pre), n, post. split_and!; [done| |done].
      by constructor.
  - right. exists [], m, ports. split_and!; [done|constructor|done].
Qed.

(** Where a range of consecutive ports is cut. *)
Lemma seqZ_split (m len : Z) pre n post :
  seqZ m len = pre ++ n :: post →
  pre = seqZ m (n - m) ∧ (m ≤ n < m + len)%Z.
Proof.
  intros Hcut.
  assert (Hlen : (Z.of_nat (length pre) < len)%Z).
  { apply (f_equal length) in Hcut. rewrite length_seqZ, length_app in Hcut.
    cbn in Hcut. lia. }
  replace len with (Z.of_nat (length pre) + (len - Z.of_nat (length pre)))%Z
    in Hcut by lia.
  rewrite seqZ_app in Hcut by lia.
  apply app_inj_1 in Hcut as [Hpre Hrest]; [|rewrite length_seqZ; lia].
  rewrite seqZ_cons in Hrest by lia. injection Hrest as Hn _.
  split; [|lia]. rewrite <- Hpre at 1. f_equal. lia.
Qed.

Lemma seqZ_cut (m len n : Z) :
  (m ≤ n < m + len)%Z →
  seqZ m len = seqZ m (n - m) ++ n :: seqZ (n + 1) (m + len - n - 1).
Proof.
  intros Hn.
  replace len with ((n - m) + (1 + (m + len - n - 1)))%Z at 1 by lia.
  rewrite seqZ_app, (seqZ_cons (m + (n - m))) by lia.
  do 2 f_equal; [lia|]. f_equal; lia.
Qed.

Lemma seqZ_snoc (m n : Z) :
  (m ≤ n)%Z → seqZ m (n - m + 1) = seqZ m (n - m) ++ [n].
Proof.
  intros Hn.
  replace (n - m + 1)%Z with (Z.of_nat (S (Z.to_nat (n - m)))) by lia.
  rewrite seqZ_S, Z2Nat.id by lia. do 2 f_equal. lia.
Qed.

Lemma start_started busy ephemeral port_start port_end s srv :
  _server s = Some srv →
  start busy ephemeral port_start port_end s = (Ok (Some (_port s)), s).
Proof. intros Hsrv. unfold start, bind, gets. by rewrite Hsrv. Qed.

Lemma start_unstarted busy ephemeral port_start port_end s :
  _server s = None →
  start busy ephemeral port_start port_end s
  = scan busy ephemeral (port_range port_start port_end) s.
Proof. intros Hsrv. unfold start, bind, gets. by rewrite Hsrv. Qed.

(** The three ways an unstarted [start] ends, by the first port of the
    range whose bind is not refused. *)
Lemma start_by_first_answer busy ephemeral port_start port_end s :
  _server s = None →
  ((∀ m, (port_start ≤ m ≤ port_end)%Z →
      server_bind busy ephemeral s m = Raise OSError)
   ∧ start busy ephemeral port_start port_end s
     = (Ok None,
        {| _server := None; _port := _port s; listeners := listeners s;
           threads := threads s; timers := timers s;
           bind_log :=
             bind_log s
             ++ (loopback <$> seqZ port_start (port_end + 1 - port_start)) |}))
  ∨ ∃ n, (port_start ≤ n ≤ port_end)%Z
      ∧ (∀ m, (port_start ≤ m < n)%Z →
           server_bind busy ephemeral s m = Raise OSError)
      ∧ ((∃ a, server_bind busy ephemeral s n = Ok a
               ∧ start busy ephemeral port_start port_end s
                 = (Ok (Some n),
                    {| _server := Some (loopback a); _port := n;
                       listeners := listeners s ++ [loopback a];
                       threads := threads s ++ [loopback a];
                       timers := timers s
                                 ++ [("http://127.0.0.1:" ++ pretty n)%string];
                       bind_log :=
                         bind_log s
                         ++ (loopback <$> seqZ port_start (n - port_start + 1)) |}))
         ∨ (server_bind busy ephemeral s n = Raise OverflowError
            ∧ start busy ephemeral port_start port_end s
              = (Raise OverflowError,
                 {| _server := None; _port := _port s; listeners := listeners s;
                    threads := threads s; timers := timers s;
                    bind_log :=
                      bind_log s
                      ++ (loopback <$> seqZ port_start (n - port_start + 1)) |}))).
Proof.
  intros Hsrv. rewrite (start_unstarted _ _ _ _ _ Hsrv). unfold port_range.
  destruct (ports_split busy ephemeral s
              (seqZ port_start (port_end + 1 - port_start)))
    as [Hall | (pre & n & post & Hcut & Hpre & Hn)].
  - left. split.
    + intros m Hm. apply (proj1 (Forall_seqZ _ _ _) Hall). lia.
    + rewrite (scan_all_refused _ _ _ _ Hall). by rewrite Hsrv.
  - right. exists n. rewrite Hcut.
    apply seqZ_split in Hcut as [-> Hrange].
    split; [lia|]. split.
    { intros m Hm. apply (proj1 (Forall_seqZ _ _ _) Hpre). lia. }
    rewrite (seqZ_snoc port_start n) by lia.
    destruct (server_bind_cases busy ephemeral s n)
      as [(a & Ha & _) | [[Hr _] | [Hr _]]]; [left|done|right].
    + exists a. split; [done|]. by rewrite (scan_first_bound _ _ _ _ _ _ _ Hpre Ha).
    + split; [done|]. rewrite (scan_first_raises _ _ _ _ _ _ Hpre Hr).
      by rewrite Hsrv.
Qed.

(** A call that returns a port leaves the server started on it. *)
Lemma start_returns_port busy ephemeral port_start port_end s n s' :
  start busy ephemeral port_start port_end s = (Ok (Some n), s') →
  ∃ srv, _server s' = Some srv ∧ _port s' = n.
Proof.
  destruct (_server s) as [srv|] eqn:Hsrv.
  - rewrite (start_started _ _ _ _ _ _ Hsrv). intros [= <- <-]. eauto.
  - destruct (start_by_first_answer busy ephemeral port_start port_end s Hsrv)
      as [[_ ->] | (m & _ & _ & [(a & _ & ->) | [_ ->]])]; [done| |done].
    intros [= <- <-]. eauto.
Qed.

(** C6.  Once a call of [start] has returned a port, every further call,
    whatever its range and whatever ports are busy by then, returns that
    same port and leaves the process as it is: no bind is attempted, no
    listener, thread or timer is added. *)
Theorem start_idempotent busy ephemeral port_start port_end s n s' :
  start busy ephemeral port_start port_end s = (Ok (Some n), s') →
  (∀ busy' ephemeral' port_start' port_end',
     start busy' ephemeral' port_start' port_end' s' = (Ok (Some n), s'))
  ∧ (∀ busy' ephemeral' ranges,
       start_each busy' ephemeral' ranges s'
       = (replicate (length ranges) (Ok (Some n)), s')).
Proof.
  intros Hstart.
  destruct (start_returns_port _ _ _ _ _ _ _ Hstart) as (srv & Hsrv & Hport).
  assert (Hagain : ∀ busy' ephemeral' a b,
             start busy' ephemeral' a b s' = (Ok (Some n), s')).
  { intros busy' ephemeral' a b.
    by rewrite (start_started _ _ _ _ _ _ Hsrv), Hport. }
  split; [exact Hagain|].
  intros busy' ephemeral' ranges. induction ranges as [|[a b] ranges IH]; [done|].
  cbn [start_each length replicate]. by rewrite Hagain, IH.
Qed.

Lemma start_idempotent_witness :
  start all_busy None 6000 6010 (start two_busy None 5111 5130 unstarted).2
  = (Ok (Some 5113%Z), (start two_busy None 5111 5130 unstarted).2).
Proof.
  apply (proj1 (start_idempotent two_busy None 5111 5130 unstarted 5113
                  (start two_busy None 5111 5130 unstarted).2 eq_refl)).
Defined.

(** C7, as the code has it.  With the server not started yet, a range in
    which every candidate bind is refused with the OSError of a port that
    cannot be had makes [start] return None; it neither raises nor waits,
    it has tried the ports of the range in ascending order, each once, and
    has opened or scheduled nothing. *)
Theorem start_reports_exhaustion busy ephemeral port_start port_end s :
  _server s = None →
  (∀ n, (port_start ≤ n ≤ port_end)%Z →
     server_bind busy ephemeral s n = Raise OSError) →
  start busy ephemeral port_start port_end s
  = (Ok None,
     {| _server := None; _port := _port s; listeners := listeners s;
        threads := threads s; timers := timers s;
        bind_log :=
          bind_log s
          ++ (loopback <$> seqZ port_start (port_end + 1 - port_start)) |}).
Proof.
  intros Hsrv Hrefused. rewrite (start_unstarted _ _ _ _ _ Hsrv).
  rewrite scan_all_refused.
  - by rewrite Hsrv.
  - apply Forall_seqZ. intros n Hn. apply Hrefused. lia.
Qed.

Lemma start_reports_exhaustion_witness :
  start two_busy None 5111 5112 unstarted
  = (Ok None,
     {| _server := None; _port := 0; listeners := []; threads := [];
        timers := [];
        bind_log := [loopback 5111; loopback 5112] |}).
Proof.
  apply (start_reports_exhaustion two_busy None 5111 5112 unstarted eq_refl).
  intros n Hn. unfold server_bind, port_taken, two_busy.
  rewrite (bool_decide_eq_true_2 (0 ≤ n ≤ 65535)%Z) by lia.
  rewrite (bool_decide_eq_false_2 (n = 0%Z)) by lia.
  rewrite (bool_decide_eq_true_2 (n = 5111 ∨ n = 5112)%Z) by lia. reflexivity.
Defined.

(** C7 as stated fails: in the range 65530..65540 no candidate can be
    bound, yet [start] does not return None: the bind of 65536 raises
    OverflowError, which is not the OSError [start] moves on from. *)
Lemma start_raises_past_last_port :
  (∀ n a, server_bind all_busy None unstarted n ≠ Ok a)
  ∧ (start all_busy None 65530 65540 unstarted).1 = Raise OverflowError
  ∧ ¬ (∀ busy ephemeral port_start port_end s,
         _server s = None →
         (∀ n, (port_start ≤ n ≤ port_end)%Z →
            ∀ a, server_bind busy ephemeral s n ≠ Ok a) →
         (start busy ephemeral port_start port_end s).1 = Ok None).
Proof.
  assert (Hnone : ∀ n a, server_bind all_busy None unstarted n ≠ Ok a).
  { intros n a. unfold server_bind, port_taken, all_busy. cbn.
    repeat case_bool_decide; done. }
  split; [exact Hnone|]. split; [vm_compute; reflexivity|].
  intros Hclaim.
  specialize (Hclaim all_busy None 65530%Z 65540%Z unstarted eq_refl
                (λ n _, Hnone n)).
  vm_compute in Hclaim. discriminate Hclaim.
Qed.

Lemma server_inv_unstarted : server_inv unstarted.
Proof. split; cbn; [done|done|constructor]. Qed.

Lemma server_inv_start busy ephemeral port_start port_end s :
  server_inv s → server_inv (start busy ephemeral port_start port_end s).2.
Proof.
  intros Hinv.
  destruct (_server s) as [srv|] eqn:Hsrv.
  { by rewrite (start_started _ _ _ _ _ _ Hsrv). }
  destruct Hinv as [Hun Hst Hlog].
  assert (Hlog' : ∀ ports,
             Forall (λ a, host a = "127.0.0.1") (bind_log s ++ (loopback <$> ports))).
  { intros ports. apply Forall_app. split; [done|].
    by apply Forall_fmap, Forall_true. }
  destruct (start_by_first_answer busy ephemeral port_start port_end s Hsrv)
    as [[_ ->] | (m & _ & _ & [(a & Ha & ->) | [_ ->]])]; split; cbn;
    try done; try (by rewrite <- Hsrv); try apply Hlog'.
  - intros _. apply Hun, Hsrv.
  - intros srv [= <-]. cbn. rewrite (Hun Hsrv). split_and!; [done| |done].
    intros Hm.
    destruct (server_bind_cases busy ephemeral s m)
      as [(a' & Ha' & _ & Heq) | [[Hr _] | [Hr _]]]; [|congruence..].
    rewrite Ha in Ha'. injection Ha' as <-. by apply Heq.
  - intros _. apply Hun, Hsrv.
Qed.

Lemma server_inv_start_each busy ephemeral ranges s :
  server_inv s → server_inv (start_each busy ephemeral ranges s).2.
Proof.
  revert s. induction ranges as [|[a b] ranges IH]; intros s Hinv; [done|].
  cbn [start_each].
  pose proof (server_inv_start busy ephemeral a b s Hinv) as Hinv1.
  destruct (start busy ephemeral a b s) as [r s1]. specialize (IH s1 Hinv1).
  by destruct (start_each busy ephemeral ranges s1).
Qed.

(** C10.  After any calls of [start] in a fresh process, a started
    server is a socket bound to 127.0.0.1 (at port [_port], unless port 0
    was asked for and the system chose the port), it is the only socket
    the process listens on, and every bind that was attempted was on
    127.0.0.1. *)
Theorem start_binds_loopback_only busy ephemeral ranges :
  let s := (start_each busy ephemeral ranges unstarted).2 in
  (∀ srv, _server s = Some srv →
     host srv = "127.0.0.1"
     ∧ (_port s ≠ 0%Z → srv = {| host := "127.0.0.1"; port := _port s |})
     ∧ listeners s = [srv])
  ∧ (_server s = None → listeners s = [])
  ∧ Forall (λ a, host a = "127.0.0.1") (bind_log s).
Proof.
  intros s.
  destruct (server_inv_start_each busy ephemeral ranges unstarted
              server_inv_unstarted) as [Hun Hst Hlog].
  split_and!; [|exact Hun | exact Hlog].
  intros srv Hsrv. destruct (Hst srv Hsrv) as (Hhost & Hport & Hl).
  split_and!; [done| |done].
  intros Hnz. destruct srv as [h p]. cbn in *. by rewrite Hhost, (Hport Hnz).
Qed.

Lemma start_binds_loopback_only_witness :
  listeners (start_each two_busy None [(5111, 5130); (80, 81)]%Z unstarted).2
  = [{| host := "127.0.0.1"; port := 5113 |}].
Proof.
  destruct (start_binds_loopback_only two_busy None [(5111, 5130); (80, 81)]%Z)
    as (Hst & _ & _).
  destruct (Hst (loopback 5113) eq_refl) as (_ & _ & Hl). exact Hl.
Defined.

End ServerClaims.

(** * Further properties *)

(** ** The resume cursor *)

Section ResumeCursor.

Import Stdlib.Strings.Ascii.

Implicit Types (s path base : string) (c : ascii) (n : N).

Lemma isdecimal_char_isdigit c : isdecimal_char c = true → isdigit_char c = true.
Proof. unfold isdecimal_char, isdigit_char. cbn. intros ->. done. Qed.

Lemma all_decimal_digit s :
  all_chars isdecimal_char s = true → all_chars isdigit_char s = true.
Proof.
  induction s as [|c s IH]; [done|]. cbn [all_chars].
  intros [Hc Hs]%andb_true_iff. by rewrite (isdecimal_char_isdigit _ Hc), IH.
Qed.

Lemma isdecimal_isdigit s : isdecimal s = true → isdigit s = true.
Proof. destruct s; [done|]. apply all_decimal_digit. Qed.

Lemma string_of_uint_decimal (d : Decimal.uint) :
  all_chars isdecimal_char (DecimalString.NilEmpty.string_of_uint d) = true.
Proof. induction d; cbn [DecimalString.NilEmpty.string_of_uint all_chars]; by rewrite ?IHd. Qed.

Lemma to_uint_nonnil n : N.to_uint n ≠ Decimal.Nil.
Proof. destruct n as [|p]; [done|]. apply DecimalPos.Unsigned.to_uint_nonnil. Qed.

(** The decimal text of a number is a non-empty string of ASCII digits. *)
Lemma decimal_isdecimal n : isdecimal (decimal n) = true.
Proof.
  unfold decimal. pose proof (to_uint_nonnil n) as Hn.
  pose proof (string_of_uint_decimal (N.to_uint n)) as Hd.
  destruct (N.to_uint n); done.
Qed.

Lemma uint_of_string_decimal s d :
  DecimalString.NilEmpty.uint_of_string s = Some d →
  all_chars isdecimal_char s = true.
Proof.
  revert d. induction s as [|c s IH]; intros d; [done|].
  cbn [DecimalString.NilEmpty.uint_of_string all_chars].
  destruct (DecimalString.NilEmpty.uint_of_string s) as [d'|]; [|done].
  intros H. rewrite (IH d' eq_refl), andb_true_r.
  apply DecimalString.uint_of_char_spec in H.
  destruct H as [[-> _]|[[-> _]|[[-> _]|[[-> _]|[[-> _]|[[-> _]|[[-> _]|[[-> _]|[[-> _]|[-> _]]]]]]]]]]; done.
Qed.

(** [int] returns the value of a decimal text, and raises on digits that
    are not decimal. *)
Lemma int_decimal n :
  (String.length (decimal n) ≤ int_max_str_digits)%nat →
  int_ (decimal n) = Ok (Z.of_N n).
Proof.
  intros Hlen. unfold int_. rewrite bool_decide_eq_false_2 by lia.
  unfold decimal. rewrite DecimalString.NilZero.usu by apply to_uint_nonnil.
  by rewrite DecimalN.Unsigned.of_to.
Qed.

Lemma int_not_decimal s : isdecimal s = false → int_ s = Raise ValueError.
Proof.
  intros Hs. unfold int_. case_bool_decide; [done|].
  destruct (DecimalString.NilZero.uint_of_string s) as [d|] eqn:Hd; [|done].
  destruct s as [|c s]; [done|].
  apply uint_of_string_decimal in Hd.
  change (all_chars isdecimal_char (String c s) = false) in Hs. congruence.
Qed.

Lemma contains_none (p : ascii → bool) c s :
  p c = false → all_chars p s = true → contains c s = false.
Proof.
  intros Hc. induction s as [|a s IH]; [done|]. cbn [all_chars contains].
  intros [Ha Hs]%andb_true_iff. rewrite (IH Hs), orb_false_r.
  destruct (Ascii.eqb_spec a c) as [->|]; [congruence|done].
Qed.

Lemma split_without c s : contains c s = false → split c s = [s].
Proof.
  induction s as [|a s IH]; [done|]. cbn [contains split].
  intros [Ha Hs]%orb_false_iff. by rewrite Ha, (IH Hs).
Qed.

Lemma contains_app c s1 s2 : contains c (s1 +:+ s2) = contains c s1 || contains c s2.
Proof.
  induction s1 as [|a s1 IH]; [done|].
  change (String a s1 +:+ s2) with (String a (s1 +:+ s2)).
  cbn [contains]. by rewrite IH, orb_assoc.
Qed.

Lemma after_first_app c s1 s2 :
  contains c s1 = false → after_first c (s1 +:+ String c s2) = Ok s2.
Proof.
  induction s1 as [|a s1 IH].
  - intros _. change ("" +:+ String c s2) with (String c s2).
    cbn [after_first]. by rewrite Ascii.eqb_refl.
  - change (String a s1 +:+ String c s2) with (String a (s1 +:+ String c s2)).
    cbn [contains after_first]. intros [-> Hs]%orb_false_iff. by apply IH.
Qed.


Lemma after_first_contains c s :
  contains c s = true → ∃ rest, after_first c s = Ok rest.
Proof.
  induction s as [|a s IH]; [done|]. cbn [contains after_first].
  destruct (Ascii.eqb a c); [eauto|]. apply IH.
Qed.

Lemma prefix_append (p rest : string) : String.prefix p (p +:+ rest) = true.
Proof. apply prefix_spec. by exists rest. Qed.

(** The value of a [last_event_id=] parameter is what follows its [=]. *)
Lemma param_value (val : string) :
  after_first "="%char ("last_event_id=" +:+ val) = Ok val.
Proof. apply (after_first_app "="%char "last_event_id" val). reflexivity. Qed.

Lemma param_last_id_cases (last_id : Z) (param : string) :
  (String.prefix "last_event_id=" param = false ∧ param_last_id last_id param = Ok last_id)
  ∨ ∃ val, param = "last_event_id=" +:+ val
           ∧ param_last_id last_id param
             = if isdigit val then int_ val else Ok last_id.
Proof.
  unfold param_last_id. destruct (String.prefix _ param) eqn:Hp; [right|by left].
  apply prefix_spec in Hp as [val ->]. exists val. by rewrite param_value.
Qed.

(** X1.  A cursor sent in the query is what the stream resumes from,
    whatever the header says, provided the header itself parses. *)
Theorem resume_cursor_from_query (header : option string) base n (h : Z) :
  contains "?"%char base = false →
  (String.length (decimal n) ≤ int_max_str_digits)%nat →
  header_last_id header = Ok h →
  parse_last_id header (base +:+ "?last_event_id=" +:+ decimal n) = Ok (Z.of_N n).
Proof.
  intros Hbase Hlen Hh. unfold parse_last_id. rewrite Hh. cbn [rbind].
  change ("?last_event_id=" +:+ decimal n)
    with (String "?"%char ("last_event_id=" +:+ decimal n)).
  rewrite contains_app. cbn [contains]. rewrite Ascii.eqb_refl, orb_true_r.
  rewrite after_first_app by done. cbn [rbind].
  pose proof (decimal_isdecimal n) as Hdec.
  assert (Hall : all_chars isdecimal_char (decimal n) = true).
  { revert Hdec. unfold isdecimal. by destruct (decimal n). }
  rewrite split_without; last first.
  { rewrite contains_app, (contains_none isdecimal_char "&"%char (decimal n)) by done.
    reflexivity. }
  cbn [params_last_id]. unfold param_last_id. rewrite prefix_append, param_value.
  cbn [rbind]. by rewrite (isdecimal_isdigit _ Hdec), int_decimal.
Qed.

Lemma params_last_id_malformed (last_id : Z) (params : list string) :
  (∀ val, ("last_event_id=" +:+ val) ∈ params → isdigit val = false) →
  params_last_id last_id params = Ok last_id.
Proof.
  induction params as [|param params IH]; intros Hbad; [done|].
  cbn [params_last_id].
  destruct (param_last_id_cases last_id param) as [[_ ->] | (val & -> & ->)].
  - cbn. apply IH. intros val Hval. apply Hbad. by right.
  - rewrite (Hbad val) by by left. cbn. apply IH.
    intros val' Hval. apply Hbad. by right.
Qed.

(** X2.  Without a well-formed cursor the stream starts from 0: an absent or
    non-numeric header and no numeric [last_event_id] parameter give 0,
    never an error. *)
Theorem malformed_cursor_is_zero (header : option string) path :
  isdigit (default "" header) = false →
  (∀ qs val, after_first "?"%char path = Ok qs →
             ("last_event_id=" +:+ val) ∈ split "&"%char qs → isdigit val = false) →
  parse_last_id header path = Ok 0%Z.
Proof.
  intros Hh Hq. unfold parse_last_id, header_last_id. rewrite Hh. cbn [rbind].
  destruct (contains "?"%char path) eqn:Hc; [|done].
  destruct (after_first_contains _ _ Hc) as [qs Hqs]. rewrite Hqs. cbn [rbind].
  apply params_last_id_malformed. intros val. by apply Hq.
Qed.

Lemma malformed_cursor_is_zero_witness :
  parse_last_id (Some "abc") "/events?last_event_id=-5&x=1" = Ok 0%Z.
Proof.
  apply malformed_cursor_is_zero; [reflexivity|].
  intros qs val [= <-] Hin. vm_compute in Hin.
  apply elem_of_cons in Hin as [Hval | Hin].
  - change ("last_event_id=" +:+ val) with (String "l" (String "a" (String "s" (String "t"
      (String "_" (String "e" (String "v" (String "e" (String "n" (String "t" (String "_"
      (String "i" (String "d" (String "=" val)))))))))))))) in Hval.
    by injection Hval as ->.
  - apply list_elem_of_singleton in Hin. discriminate Hin.
Defined.

(** X3.  A cursor made of characters that [isdigit] accepts but [int] does
    not (a superscript digit) is not treated as malformed: the ValueError
    of [int] leaves the handler before anything is subscribed or sent. *)
Theorem non_decimal_digit_cursor_raises room s path sched (c : Conn) :
  isdigit s = true → isdecimal s = false →
  _serve_sse_request room (Some s) path sched c = (Exited (Raise ValueError), c)
  ∧ (contains "?"%char path = false →
     ∀ header h, header_last_id header = Ok h →
       _serve_sse_request room header (path +:+ "?last_event_id=" +:+ s) sched c
       = (Exited (Raise ValueError), c)).
Proof.
  intros Hdig Hdec. pose proof (int_not_decimal _ Hdec) as Hint. split.
  - unfold _serve_sse_request, parse_last_id, header_last_id.
    change (default "" (Some s)) with s. by rewrite Hdig, Hint.
  - intros Hpath header h Hh. unfold _serve_sse_request, parse_last_id.
    rewrite Hh. cbn [rbind].
    change ("?last_event_id=" +:+ s) with (String "?"%char ("last_event_id=" +:+ s)).
    rewrite contains_app. cbn [contains]. rewrite Ascii.eqb_refl, orb_true_r.
    rewrite after_first_app by done. cbn [rbind].
    assert (Hall : all_chars isdigit_char s = true).
    { revert Hdig. unfold isdigit. by destruct s. }
    rewrite split_without; last first.
    { rewrite contains_app, (contains_none isdigit_char "&"%char s) by done.
      reflexivity. }
    cbn [params_last_id]. unfold param_last_id. rewrite prefix_append, param_value.
    cbn [rbind]. by rewrite Hdig, Hint.
Qed.

Lemma non_decimal_digit_cursor_raises_witness :
  _serve_sse_request plenty (Some superscript_two) "/events" []
    {| world := initial; wfile := [] |}
  = (Exited (Raise ValueError), {| world := initial; wfile := [] |}).
Proof.
  apply (non_decimal_digit_cursor_raises plenty superscript_two "/events" []
           {| world := initial; wfile := [] |}); reflexivity.
Defined.

End ResumeCursor.

(** ** Order and loss on the bus *)

Section BusOrder.

Implicit Types (w : World) (q r : qref) (x : event) (cs : list call).

Lemma seqZ_sorted (m len : Z) : StronglySorted Z.lt (seqZ m len).
Proof.
  destruct (decide (len ≤ 0)%Z) as [Hle|Hpos].
  { rewrite seqZ_nil by done. constructor. }
  rewrite <- (Z2Nat.id len) by lia. generalize (Z.to_nat len). clear. intros n.
  revert m. induction n as [|n IH]; intros m.
  { rewrite seqZ_nil by done. constructor. }
  rewrite seqZ_cons by lia. constructor.
  - replace (Z.pred (Z.of_nat (S n))) with (Z.of_nat n) by lia. apply IH.
  - apply Forall_seqZ. lia.
Qed.

Lemma sorted_snoc (l : list Z) (b : Z) :
  StronglySorted Z.lt l → Forall (λ i, (i < b)%Z) l → StronglySorted Z.lt (l ++ [b]).
Proof.
  intros Hl Hb. apply StronglySorted_app. split_and!; [|done|repeat constructor].
  intros x1 x2 Hx1 ->%list_elem_of_singleton.
  by apply (proj1 (Forall_forall _ _) Hb).
Qed.

Lemma sorted_delete (l1 l2 : list Z) (a : Z) :
  StronglySorted Z.lt (l1 ++ a :: l2) → StronglySorted Z.lt (l1 ++ l2).
Proof.
  rewrite !StronglySorted_app, StronglySorted_cons.
  intros (Hcross & H1 & _ & H2). split_and!; [|done..].
  intros x1 x2 Hx1 Hx2. apply Hcross; [done|by right].
Qed.

Lemma sorted_tail (l : list Z) : StronglySorted Z.lt l → StronglySorted Z.lt (tail l).
Proof. destruct l as [|a l]; [done|]. by intros [_ ?]%StronglySorted_cons. Qed.

Lemma Forall_tail {A} (P : A → Prop) (l : list A) : Forall P l → Forall P (tail l).
Proof. destruct l; [done|]. by intros [_ ?]%Forall_cons. Qed.

(** The history is in ascending id order and below the counter. *)
Lemma history_sorted w :
  bus_inv w →
  StronglySorted Z.lt (ids (_history (_bus w)))
  ∧ Forall (λ i, (i < _next_id (_bus w))%Z) (ids (_history (_bus w))).
Proof.
  intros Hinv. rewrite (inv_ids _ Hinv). split; [apply seqZ_sorted|].
  apply Forall_seqZ. lia.
Qed.

Lemma filter_sorted (k : Z) w :
  bus_inv w →
  let replay := ids (filter (λ e, (eid e > k)%Z) (_history (_bus w))) in
  StronglySorted Z.lt replay
  ∧ Forall (λ i, (k < i < _next_id (_bus w))%Z) replay.
Proof.
  intros Hinv replay. unfold replay.
  rewrite (ids_filter_after k _ _ (inv_ids _ Hinv)).
  split; [apply seqZ_sorted|]. apply Forall_seqZ. lia.
Qed.

Lemma queues_sorted_initial : queues_sorted initial.
Proof.
  intros q que Hq. unfold initial in Hq. cbn [queues] in Hq.
  by rewrite lookup_empty in Hq.
Qed.

Lemma queues_sorted_exec c w :
  bus_inv w → queues_sorted w → queues_sorted (exec c w).
Proof.
  intros Hinv Hs. destruct c as [room t d|k|q'|q']; cbn [exec].
  - unfold push_event. destruct (dumps_cases room d) as [[_ [j Hd]] | [_ [e Hd]]].
    2: { by rewrite (push_raises _ _ _ _ _ Hd). }
    rewrite (push_eq _ _ _ _ _ Hd (inv_live _ Hinv)). intros q que. cbn.
    rewrite lookup_deliver by apply Hinv. case_decide.
    + intros (que0 & Hq0 & ->)%fmap_Some. destruct (Hs _ _ Hq0) as [Hsort Hlt].
      unfold offer. destruct (full que0).
      * split; [done|]. eapply Forall_impl; [done|]. cbn. lia.
      * cbn. unfold ids in *. rewrite fmap_app. cbn. split.
        -- by apply sorted_snoc.
        -- apply Forall_app. split.
           ++ eapply Forall_impl; [done|]. cbn. lia.
           ++ repeat constructor. lia.
    + intros Hq0. destruct (Hs _ _ Hq0) as [Hsort Hlt]. split; [done|].
      eapply Forall_impl; [done|]. cbn. lia.
  - pose proof (history_short _ Hinv). rewrite subscribe_eq by lia.
    intros q que. cbn. rewrite lookup_insert. case_decide.
    + intros [= <-]. cbn. destruct (filter_sorted k w Hinv) as [Hsort Hlt].
      split; [done|]. eapply Forall_impl; [done|]. cbn. lia.
    + apply Hs.
  - rewrite unsubscribe_eq. intros q que. cbn. apply Hs.
  - rewrite get_eq. destruct (queues w !! q') as [que'|] eqn:Hq'; [|done].
    destruct (items que') as [|x rest] eqn:Hits; [done|].
    intros q que. cbn. rewrite lookup_insert. case_decide; [|apply Hs].
    intros [= <-]. cbn. destruct (Hs _ _ Hq') as [Hsort Hlt].
    rewrite Hits in Hsort, Hlt. unfold ids in *. cbn in Hsort, Hlt.
    apply StronglySorted_cons in Hsort as [_ Hsort].
    apply Forall_cons in Hlt as [_ Hlt]. done.
Qed.

Lemma queues_sorted_run cs w :
  bus_inv w → queues_sorted w → queues_sorted (run cs w).
Proof.
  revert w. induction cs as [|c cs IH]; intros w Hinv Hs; [done|].
  rewrite run_cons. apply IH; [by apply inv_exec | by apply queues_sorted_exec].
Qed.

Lemma sorted_NoDup (l : list Z) : StronglySorted Z.lt l → NoDup l.
Proof.
  induction l as [|a l IH]; [constructor|].
  intros [Ha Hl]%StronglySorted_cons. constructor; [|by apply IH].
  intros Hin. apply (proj1 (Forall_forall _ _) Ha) in Hin. lia.
Qed.

Lemma reachable_sorted w : reachable w → queues_sorted w.
Proof.
  intros [cs ->]. apply queues_sorted_run; [apply inv_initial|].
  apply queues_sorted_initial.
Qed.

(** X4.  In every reachable world every mailbox holds its records in strictly
    ascending id order, without duplicates, all of them already stamped. *)
Theorem mailboxes_stay_ordered w q que :
  reachable w → queues w !! q = Some que →
  StronglySorted Z.lt (ids (items que))
  ∧ NoDup (ids (items que))
  ∧ Forall (λ i, (i < _next_id (_bus w))%Z) (ids (items que)).
Proof.
  intros Hreach Hq. destruct (reachable_sorted _ Hreach _ _ Hq) as [Hsort Hlt].
  split_and!; [done|by apply sorted_NoDup|done].
Qed.

(** Calls that touch neither the registration nor the content of [q]. *)
Lemma exec_leaves_queue c q que w :
  bus_inv w → queues w !! q = Some que →
  (∀ room t d, c ≠ CallPush room t d) → c ≠ CallGet q →
  queues (exec c w) !! q = Some que.
Proof.
  intros Hinv Hq Hpush Hget. destruct c as [room t d|k|q'|q']; cbn [exec].
  - by destruct (Hpush room t d).
  - pose proof (history_short _ Hinv). rewrite subscribe_eq by lia. cbn.
    rewrite lookup_insert_ne; [done|]. intros <-.
    apply (is_fresh (dom (queues w))), elem_of_dom. eauto.
  - by rewrite unsubscribe_eq.
  - rewrite get_eq. destruct (queues w !! q') as [que'|] eqn:Hq'; [|done].
    destruct (items que'); [done|]. cbn. rewrite lookup_insert_ne; [done|].
    congruence.
Qed.

Lemma lossless_run cs q que w :
  bus_inv w → q ∈ _subscribers (_bus w) → queues w !! q = Some que →
  Forall (leaves_alone q) cs →
  (length (items que) + length (published cs w) ≤ 512)%nat →
  ∃ que', queues (run cs w) !! q = Some que'
          ∧ items que' = items que ++ published cs w.
Proof.
  revert w que. induction cs as [|c cs IH]; intros w que Hinv Hsub Hq Hcs Hlen.
  { exists que. by rewrite app_nil_r. }
  apply Forall_cons in Hcs as [[Hunsub Hget] Hcs].
  rewrite run_cons. cbn [published] in Hlen |- *.
  pose proof (inv_exec c w Hinv) as Hinv'.
  pose proof (subscribed_exec c q w Hinv Hsub Hunsub) as Hsub'.
  destruct c as [room t d|k|q'|q'].
  - destruct (dumps_cases room d) as [[_ [j Hd]] | [_ [e Hd]]].
    + rewrite (stamped_ok _ _ _ _ _ Hinv Hd) in Hlen |- *.
      unfold option_list in Hlen |- *. cbn [option_rect app length] in Hlen |- *.
      destruct (inv_cap _ Hinv _ _ Hq) as [Hmax _].
      assert (Hq' : queues (exec (CallPush room t d) w) !! q
                    = Some (enqueue (_next_id (_bus w), t, j) que)).
      { cbn [exec]. unfold push_event.
        rewrite (push_offers _ _ _ _ _ _ _ Hinv Hd Hsub Hq). unfold offer, full.
        rewrite bool_decide_eq_false_2; [done|]. rewrite Hmax. clear -Hlen.
        revert Hlen. generalize (length (items que)). intros a. 
        generalize (length (published cs (exec (CallPush room t d) w))). lia. }
      destruct (IH _ _ Hinv' Hsub' Hq' Hcs) as (que' & Hque' & Hits).
      { unfold enqueue. cbn [items]. rewrite length_app. cbn [length]. clear -Hlen.
        revert Hlen. generalize (length (items que)). intros a.
        generalize (length (published cs (exec (CallPush room t d) w))). lia. }
      exists que'. split; [done|]. rewrite Hits. cbn. by rewrite <- app_assoc.
    + assert (Hex : exec (CallPush room t d) w = w).
      { cbn [exec]. unfold push_event. by rewrite (push_raises _ _ _ _ _ Hd). }
      rewrite (stamped_raises _ _ _ _ _ Hd), Hex in Hlen |- *.
      by apply IH.
  - cbn [app] in Hlen |- *. apply IH; try done. by apply exec_leaves_queue.
  - cbn [app] in Hlen |- *. apply IH; try done. by apply exec_leaves_queue.
  - cbn [app] in Hlen |- *. apply IH; try done. apply exec_leaves_queue; try done.
Qed.

(** X5.  A subscriber that is not drained by anyone else and stays within
    its capacity loses nothing: its mailbox is the replay followed by every
    record published since, in publish order. *)
Theorem mailbox_is_replay_then_live w (k : Z) q w' cs :
  reachable w → subscribe k w = (Ok q, w') →
  Forall (leaves_alone q) cs →
  (length (filter (λ e, (eid e > k)%Z) (_history (_bus w)))
   + length (published cs w') ≤ 512)%nat →
  ∃ que, queues (run cs w') !! q = Some que
         ∧ items que
           = filter (λ e, (eid e > k)%Z) (_history (_bus w)) ++ published cs w'.
Proof.
  intros Hreach Hsub Hcs Hlen. pose proof (reachable_inv _ Hreach) as Hinv.
  pose proof (history_short _ Hinv) as Hshort.
  pose proof (inv_subscribe k w Hinv) as Hinv'.
  rewrite Hsub in Hinv'. cbn [snd] in Hinv'.
  rewrite subscribe_eq in Hsub by lia. injection Hsub as Hq Hw'.
  destruct (lossless_run cs q
              {| maxsize := 512;
                 items := filter (λ e, (eid e > k)%Z) (_history (_bus w)) |}
              w' Hinv') as (que & Hque & Hits); try done.
  - rewrite <- Hw'. cbn. apply elem_of_app. right. by apply list_elem_of_singleton.
  - rewrite <- Hw'. cbn. rewrite Hq. apply lookup_insert_eq.
  - eauto.
Qed.

End BusOrder.

Section BusMore.

Implicit Types (w : World) (q r : qref) (x : event) (cs : list call).

Lemma unsubscribed_exec c q que w :
  bus_inv w → q ∉ _subscribers (_bus w) → queues w !! q = Some que →
  c ≠ CallGet q →
  (q ∉ _subscribers (_bus (exec c w))) ∧ queues (exec c w) !! q = Some que.
Proof.
  intros Hinv Hq Hque Hget. destruct c as [room t d|k|q'|q']; cbn [exec].
  - unfold push_event. destruct (dumps_cases room d) as [[_ [j Hd]] | [_ [e Hd]]].
    + rewrite (push_eq _ _ _ _ _ Hd (inv_live _ Hinv)). cbn.
      by rewrite lookup_deliver_notin.
    + by rewrite (push_raises _ _ _ _ _ Hd).
  - pose proof (history_short _ Hinv). rewrite subscribe_eq by lia. cbn.
    assert (Hne : fresh (dom (queues w)) ≠ q).
    { intros <-. apply (is_fresh (dom (queues w))), elem_of_dom. eauto. }
    split; [|by rewrite lookup_insert_ne].
    rewrite elem_of_app, list_elem_of_singleton. naive_solver.
  - rewrite unsubscribe_eq. cbn. split; [|done].
    destruct (list_remove q' _) as [l|] eqn:Hl; [|done]. cbn.
    destruct (list_remove_Some _ _ _ (inv_nodup _ Hinv) Hl) as (_ & _ & Hiff).
    rewrite Hiff. naive_solver.
  - rewrite get_eq. destruct (queues w !! q') as [que'|] eqn:Hq'; [|done].
    destruct (items que'); [done|]. cbn. split; [done|].
    rewrite lookup_insert_ne; [done|]. congruence.
Qed.

Lemma unsubscribed_run cs q que w :
  bus_inv w → q ∉ _subscribers (_bus w) → queues w !! q = Some que →
  Forall (λ c, c ≠ CallGet q) cs →
  (q ∉ _subscribers (_bus (run cs w))) ∧ queues (run cs w) !! q = Some que.
Proof.
  revert w. induction cs as [|c cs IH]; intros w Hinv Hq Hque Hcs; [done|].
  apply Forall_cons in Hcs as [Hc Hcs]. rewrite run_cons.
  destruct (unsubscribed_exec c q que w Hinv Hq Hque Hc) as [Hq' Hque'].
  apply IH; [by apply inv_exec|done..].
Qed.

(** X6.  [unsubscribe] is idempotent and final: a second call changes
    nothing, and whatever is published or subscribed afterwards, the
    channel's pending items stay exactly as they were. *)
Theorem unsubscribed_receives_nothing w q que cs :
  reachable w → queues w !! q = Some que →
  Forall (λ c, c ≠ CallGet q) cs →
  let w1 := (unsubscribe q w).2 in
  unsubscribe q w1 = (Ok tt, w1)
  ∧ (q ∉ _subscribers (_bus (run cs w1)))
  ∧ queues (run cs w1) !! q = Some que.
Proof.
  intros Hreach Hque Hcs w1. pose proof (reachable_inv _ Hreach) as Hinv.
  pose proof (inv_unsubscribe q w Hinv) as Hinv1.
  pose proof (unsubscribe_removes q w Hinv) as Hgone. fold w1 in Hinv1, Hgone.
  assert (Hque1 : queues w1 !! q = Some que).
  { unfold w1. by rewrite unsubscribe_eq. }
  split; [|by apply unsubscribed_run].
  rewrite unsubscribe_eq.
  rewrite (proj2 (list_remove_None q (_subscribers (_bus w1))) Hgone). cbn.
  by destruct w1 as [[] ?].
Qed.

(** X7.  A publish is all or nothing: it either returns, having consumed
    exactly one id, or raises with the bus exactly as it was; it never
    waits.  Which of the two is decided by the payload alone. *)
Theorem push_event_all_or_nothing w room t d :
  reachable w →
  (serializable room d = true
   ∧ ∃ w', push_event room t d w = (Ok tt, w')
           ∧ _next_id (_bus w') = (_next_id (_bus w) + 1)%Z)
  ∨ (serializable room d = false ∧ ∃ e, push_event room t d w = (Raise e, w)).
Proof.
  intros Hreach. pose proof (reachable_inv _ Hreach) as Hinv.
  unfold push_event.
  destruct (dumps_cases room d) as [[-> [j Hd]] | [-> [e Hd]]]; [left|right].
  - split; [done|]. rewrite (push_eq _ _ _ _ _ Hd (inv_live _ Hinv)). eauto.
  - split; [done|]. exists e. by apply push_raises.
Qed.

Lemma filter_all {A} (P : A → Prop) `{∀ a, Decision (P a)} (l : list A) :
  Forall P l → filter P l = l.
Proof.
  induction 1 as [|a l Ha _ IH]; [done|].
  by rewrite filter_cons, decide_True, IH.
Qed.

Lemma filter_none {A} (P : A → Prop) `{∀ a, Decision (P a)} (l : list A) :
  Forall (λ a, ¬ P a) l → filter P l = [].
Proof.
  induction 1 as [|a l Ha _ IH]; [done|].
  by rewrite filter_cons, decide_False, IH.
Qed.

(** X8.  A cursor older than the retained window replays the whole history,
    silently; a cursor at or beyond the newest id replays nothing. *)
Theorem replay_outside_window w (k : Z) :
  reachable w →
  let h := _history (_bus w) in
  ((k < _next_id (_bus w) - Z.of_nat (length h))%Z →
   ∃ q w', subscribe k w = (Ok q, w')
           ∧ items <$> queues w' !! q = Some h)
  ∧ ((_next_id (_bus w) - 1 ≤ k)%Z →
     ∃ q w', subscribe k w = (Ok q, w')
             ∧ items <$> queues w' !! q = Some []).
Proof.
  intros Hreach h. pose proof (reachable_inv _ Hreach) as Hinv.
  pose proof (history_short _ Hinv) as Hshort.
  pose proof (inv_ids _ Hinv) as Hids. fold h in Hids.
  assert (Hall : Forall (λ e, (_next_id (_bus w) - Z.of_nat (length h) ≤ eid e
                               < _next_id (_bus w))%Z) h).
  { apply (Forall_fmap eid (λ i, (_ ≤ i < _)%Z)). fold (ids h). rewrite Hids.
    apply Forall_seqZ. lia. }
  split; intros Hk; rewrite subscribe_eq by lia; eexists _, _;
    (split; [done|]); cbn; rewrite lookup_insert_eq; cbn; f_equal; fold h.
  - apply filter_all. eapply Forall_impl; [done|]. cbn. lia.
  - apply filter_none. eapply Forall_impl; [done|]. cbn. lia.
Qed.

End BusMore.

Section WireOrder.

Implicit Types (w : World) (q sub : qref) (c : Conn) (cs : list call).

Lemma pending_exec call q w :
  bus_inv w → is_Some (queues w !! q) →
  is_Some (queues (exec call w) !! q)
  ∧ (_next_id (_bus w) ≤ _next_id (_bus (exec call w)))%Z
  ∧ (pending q (exec call w) = pending q w
     ∨ (pending q (exec call w) = pending q w ++ [_next_id (_bus w)]
        ∧ _next_id (_bus (exec call w)) = (_next_id (_bus w) + 1)%Z)
     ∨ pending q (exec call w) = tail (pending q w)).
Proof.
  intros Hinv [que Hq]. unfold pending. rewrite Hq. cbn [from_option].
  destruct call as [room t d|k|q'|q'].
  - cbn [exec]. unfold push_event.
    destruct (dumps_cases room d) as [[_ [j Hd]] | [_ [e Hd]]].
    2: { rewrite (push_raises _ _ _ _ _ Hd). cbn [snd]. rewrite Hq. cbn.
         split_and!; [eauto|lia|by left]. }
    rewrite (push_eq _ _ _ _ _ Hd (inv_live _ Hinv)). cbn [snd queues _bus _next_id].
    rewrite lookup_deliver, Hq by apply Hinv. case_decide; cbn.
    + unfold offer. destruct (full que); cbn.
      * split_and!; [eauto|lia|by left].
      * split_and!; [eauto|lia|]. right; left. unfold ids. by rewrite fmap_app.
    + split_and!; [eauto|lia|by left].
  - rewrite (exec_leaves_queue (CallSubscribe k) q que w Hinv Hq) by done.
    destruct (exec_frame (CallSubscribe k) w Hinv) as [_ Hn]; [done|].
    rewrite Hn. cbn. split_and!; [eauto|lia|by left].
  - cbn [exec]. rewrite unsubscribe_eq. cbn. rewrite Hq. cbn.
    split_and!; [eauto|lia|by left].
  - destruct (decide (q' = q)) as [->|Hne].
    + cbn [exec]. rewrite get_eq, Hq. destruct (items que) as [|x rest] eqn:Hits.
      * cbn [snd]. rewrite Hq. cbn. rewrite Hits. split_and!; [eauto|lia|by left].
      * cbn. rewrite lookup_insert_eq. cbn. split_and!; [eauto|lia|].
        right; right. done.
    + rewrite (exec_leaves_queue (CallGet q') q que w Hinv Hq) by congruence.
      destruct (exec_frame (CallGet q') w Hinv) as [_ Hn]; [done|].
      rewrite Hn. cbn. split_and!; [eauto|lia|by left].
Qed.

Lemma frame_ids_app fs fs' : frame_ids (fs ++ fs') = frame_ids fs ++ frame_ids fs'.
Proof. apply omap_app. Qed.

(** The state one pass of the loop leaves. *)
Lemma body_state room sub o c :
  (body room sub o c).2 =
    match queues (world c) !! sub with
    | None => c
    | Some que =>
        match items que with
        | [] =>
            match o with
            | Written => {| world := world c; wfile := wfile c ++ [KeepaliveFrame] |}
            | WriteFails _ => c
            end
        | x :: rest =>
            {| world := {| _bus := _bus (world c);
                           queues := <[sub := {| maxsize := maxsize que; items := rest |}]>
                                       (queues (world c)) |};
               wfile := match event_frame room x, o with
                        | Ok f, Written => wfile c ++ [f]
                        | _, _ => wfile c
                        end |}
        end
    end.
Proof.
  unfold body, try_except, bind, lift. rewrite on_bus_eq, get_eq.
  destruct (queues (world c) !! sub) as [que|]; [|by destruct c].
  destruct (items que) as [|x rest]; cbn.
  - destruct o as [|[]]; cbn; by destruct c.
  - destruct (event_frame_cases room x) as [[p ->] | [-> | ->]];
      destruct o as [|[]]; cbn; done.
Qed.

Lemma wire_ok_body room lo sub o c :
  wire_ok lo sub c →
  wire_ok lo sub (body room sub o c).2
  ∧ (is_Some (queues (world c) !! sub) →
     is_Some (queues (world (body room sub o c).2) !! sub)).
Proof.
  intros (Hsort & Hbound & Hlo). rewrite body_state. unfold wire_ok, pending in *.
  destruct (queues (world c) !! sub) as [que|] eqn:Hq; [|by rewrite Hq].
  cbn [from_option] in Hsort, Hbound.
  destruct (items que) as [|x rest] eqn:Hits.
  - rewrite app_nil_r in Hsort, Hbound.
    destruct o; cbn [world wfile]; rewrite Hq; cbn [from_option];
      rewrite Hits, ?frame_ids_app; cbn; rewrite ?app_nil_r; eauto.
  - cbn [world wfile queues _bus]. rewrite lookup_insert_eq. cbn [from_option items].
    unfold ids in *. cbn [fmap list_fmap] in Hsort, Hbound.
    split; [|eauto].
    assert (Hdrop : StronglySorted Z.lt (frame_ids (wfile c) ++ (eid <$> rest))
                    ∧ Forall (λ i, (lo ≤ i < _next_id (_bus (world c)))%Z)
                             (frame_ids (wfile c) ++ (eid <$> rest))
                    ∧ (lo ≤ _next_id (_bus (world c)))%Z).
    { split_and!; [by eapply sorted_delete| |done].
      apply Forall_app in Hbound as [H1 [_ H2]%Forall_cons].
      by apply Forall_app. }
    destruct (event_frame_cases room x) as [[p ->] | [-> | ->]];
      destruct o; try exact Hdrop.
    rewrite frame_ids_app. cbn. rewrite <- app_assoc. done.
Qed.

Lemma wire_ok_exec lo sub call c :
  bus_inv (world c) → is_Some (queues (world c) !! sub) →
  wire_ok lo sub c →
  wire_ok lo sub {| world := exec call (world c); wfile := wfile c |}.
Proof.
  intros Hinv Hq (Hsort & Hbound & Hlo). unfold wire_ok. cbn [world wfile].
  destruct (pending_exec call sub (world c) Hinv Hq)
    as (_ & Hn & [-> | [[-> Hn'] | ->]]).
  - split_and!; [done| |lia]. eapply Forall_impl; [done|]. cbn. lia.
  - rewrite app_assoc. split_and!; [| |lia].
    + apply sorted_snoc; [done|]. eapply Forall_impl; [done|]. cbn. lia.
    + apply Forall_app. split.
      * eapply Forall_impl; [done|]. cbn. lia.
      * repeat constructor; lia.
  - split_and!; [| |lia].
    + destruct (pending sub (world c)) as [|a l]; [done|]. cbn [tail].
      by eapply sorted_delete.
    + apply Forall_app in Hbound as [H1 H2]. apply Forall_app. split.
      * eapply Forall_impl; [done|]. cbn. lia.
      * apply Forall_tail. eapply Forall_impl; [done|]. cbn. lia.
Qed.

Lemma wire_ok_loop room lo sub sched c :
  bus_inv (world c) → is_Some (queues (world c) !! sub) →
  wire_ok lo sub c → wire_ok lo sub (loop room sub sched c).2.
Proof.
  revert c. induction sched as [|[o|call] sched IH]; intros c Hinv Hq Hok; [done|..].
  - cbn [loop]. unfold bind.
    pose proof (body_inv room sub o c Hinv) as Hinv'.
    destruct (wire_ok_body room lo sub o c Hok) as [Hok' Hq']. specialize (Hq' Hq).
    destruct (body room sub o c) as [[[]|e|] c1]; cbn [snd] in *; try done.
    by apply IH.
  - cbn [loop]. unfold bind. rewrite on_bus_eq. cbn [fst snd modify].
    apply IH; cbn [world wfile].
    + by apply inv_exec.
    + by destruct (pending_exec call sub (world c) Hinv Hq) as [? _].
    + by apply wire_ok_exec.
Qed.

(** X9.  Whatever else happens on the bus meanwhile, the event frames one
    connection writes carry strictly ascending ids: nothing is sent twice
    or out of order, and nothing at or below the cursor unless the cursor
    was ahead of the bus when the client connected. *)
Theorem frames_in_id_order room w (last_id : Z) sched :
  reachable w →
  let c' := (_serve_sse room last_id sched {| world := w; wfile := [] |}).2 in
  StronglySorted Z.lt (frame_ids (wfile c'))
  ∧ NoDup (frame_ids (wfile c'))
  ∧ Forall (λ i, (last_id < i ∨ _next_id (_bus w) ≤ i)%Z) (frame_ids (wfile c'))
  ∧ Forall (λ i, (i < _next_id (_bus (world c')))%Z) (frame_ids (wfile c')).
Proof.
  intros Hreach c'. pose proof (reachable_inv _ Hreach) as Hinv.
  pose proof (history_short _ Hinv) as Hshort.
  pose proof (inv_subscribe last_id w Hinv) as Hinv1.
  set (lo := Z.min (last_id + 1) (_next_id (_bus w))).
  assert (Hwire : wire_ok lo (fresh (dom (queues w))) c'
                  ∨ (wfile c' = [] ∧ bus_inv (world c'))).
  { unfold c', _serve_sse. rewrite on_bus_eq. cbn [world wfile].
    rewrite subscribe_eq in Hinv1 |- * by lia. cbn [fst snd] in Hinv1 |- *.
    set (sub := fresh (dom (queues w))) in *.
    match goal with |- context [loop room sub sched ?c] => set (c1 := c) end.
    assert (Hq1 : is_Some (queues (world c1) !! sub)).
    { cbn. rewrite lookup_insert_eq. eauto. }
    assert (Hok1 : wire_ok lo sub c1).
    { unfold wire_ok, pending. cbn. rewrite lookup_insert_eq. cbn.
      destruct (filter_sorted last_id w Hinv) as [Hs Hb].
      split_and!; [done| |lia]. eapply Forall_impl; [done|]. cbn. lia. }
    pose proof (wire_ok_loop room lo sub sched c1 Hinv1 Hq1 Hok1) as Hok2.
    left. destruct (loop room sub sched c1) as [[[[]|]|e|] c2]; cbn [snd] in *;
      try done; rewrite on_bus_eq, unsubscribe_eq; cbn [fst snd];
      destruct Hok2 as (Hs & Hb & Hlo); unfold wire_ok, pending; cbn; done. }
  destruct Hwire as [(Hs & Hb & Hlo) | [Hnil _]].
  - apply StronglySorted_app_1_l in Hs as Hs'.
    apply Forall_app in Hb as [Hb' _].
    split_and!; [done|by apply sorted_NoDup| |].
    + eapply Forall_impl; [done|]. cbn. lia.
    + eapply Forall_impl; [done|]. cbn. lia.
  - rewrite Hnil. cbn. split_and!; constructor.
Qed.

End WireOrder.

Section Isolation.

Implicit Types (w : World) (q sub : qref) (c : Conn).

Lemma body_alone room sub o c :
  _bus (world (body room sub o c).2) = _bus (world c)
  ∧ ∀ q, q ≠ sub →
      queues (world (body room sub o c).2) !! q = queues (world c) !! q.
Proof.
  rewrite body_state. destruct (queues (world c) !! sub) as [que|]; [|done].
  destruct (items que) as [|x rest]; [by destruct o|]. cbn.
  split; [done|]. intros q Hq. by rewrite lookup_insert_ne.
Qed.

Lemma loop_alone room sub os c :
  _bus (world (loop room sub (alone os) c).2) = _bus (world c)
  ∧ ∀ q, q ≠ sub →
      queues (world (loop room sub (alone os) c).2) !! q = queues (world c) !! q.
Proof.
  unfold alone. revert c. induction os as [|o os IH]; intros c; [done|].
  rewrite fmap_cons. cbn [loop]. unfold bind.
  destruct (body_alone room sub o c) as [Hb Hq].
  destruct (body room sub o c) as [[[]|e|] c1]; cbn [snd] in *; try done.
  destruct (IH c1) as [Hb' Hq']. split; [congruence|].
  intros q Hne. by rewrite Hq', Hq.
Qed.

Lemma list_remove_last q (l : list qref) : q ∉ l → list_remove q (l ++ [q]) = Some l.
Proof.
  induction l as [|r l IH]; intros Hq; cbn.
  - by rewrite decide_True.
  - apply not_elem_of_cons in Hq as [Hne Hq].
    rewrite decide_False by done. by rewrite IH.
Qed.

(** X10.  A connection that comes and goes leaves the bus as it found it:
    the history, the counter, the registry and every other client's queue
    are what they were before it subscribed. *)
Theorem connection_leaves_no_trace room w fs (last_id : Z) os r c' :
  reachable w →
  _serve_sse room last_id (alone os) {| world := w; wfile := fs |} = (Exited r, c') →
  _bus (world c') = _bus w
  ∧ ∀ q, q ∈ dom (queues w) → queues (world c') !! q = queues w !! q.
Proof.
  intros Hreach. pose proof (reachable_inv _ Hreach) as Hinv.
  pose proof (history_short _ Hinv) as Hshort.
  pose proof (fresh_not_subscribed _ Hinv) as Hfresh.
  pose proof (inv_subscribe last_id w Hinv) as Hinv1.
  unfold _serve_sse. rewrite on_bus_eq. cbn [world wfile].
  rewrite subscribe_eq in Hinv1 |- * by lia. cbn [fst snd] in Hinv1 |- *.
  set (sub := fresh (dom (queues w))) in *.
  match goal with |- context [loop room sub _ ?c] => set (c1 := c) end.
  destruct (loop_alone room sub os c1) as [Hb Hq].
  destruct (loop_inv room sub (alone os) c1 Hinv1) as [Hnb _].
  assert (Hdone : ∀ c2, _bus (world c2) = _bus (world c1) →
            (∀ q, q ≠ sub → queues (world c2) !! q = queues (world c1) !! q) →
            _bus (unsubscribe sub (world c2)).2 = _bus w
            ∧ ∀ q, q ∈ dom (queues w) →
                queues (unsubscribe sub (world c2)).2 !! q = queues w !! q).
  { intros c2 Hb2 Hq2. rewrite unsubscribe_eq. cbn [snd _bus queues].
    rewrite Hb2. cbn. rewrite list_remove_last by done. cbn. split.
    - by destruct (_bus w).
    - intros q Hin. assert (q ≠ sub) as Hne.
      { intros ->. by apply (is_fresh (dom (queues w))). }
      rewrite Hq2 by done. cbn. by rewrite lookup_insert_ne. }
  destruct (loop room sub (alone os) c1) as [[[[]|]|e|] c2]; cbn [fst snd] in Hb, Hq, Hnb;
    try done; rewrite on_bus_eq, unsubscribe_eq; cbn [fst snd];
    intros [= <- <-]; cbn [world];
    specialize (Hdone c2 Hb Hq); by rewrite unsubscribe_eq in Hdone.
Qed.

End Isolation.

(** ** From the producer to the wire *)

Section RoundTrip.

Implicit Types (room : nat) (d : list (pyval * pyval)).

Lemma dict_set_fits room k v d :
  serializable room v = true →
  forallb (λ kv, key_ok kv.1 && serializable room kv.2) d = true →
  forallb (λ kv, key_ok kv.1 && serializable room kv.2) (dict_set k v d) = true.
Proof.
  intros Hv. induction d as [|[k' v'] d IH]; cbn [dict_set forallb fst snd].
  { intros _. cbn. by rewrite Hv. }
  intros [[Hk' Hv']%andb_true_iff Hd]%andb_true_iff.
  destruct k'; cbn [forallb fst snd]; rewrite ?Hk', ?Hv', ?Hd, ?IH; try done.
  destruct (String.eqb s k); cbn [forallb fst snd]; by rewrite ?Hv, ?Hv', ?Hd, ?IH.
Qed.

(** What [dumps] wrote, [loads] reads back wherever there is at least as
    much room, and the value read can be written again there. *)
Lemma dumps_loads room o j :
  dumps room o = Ok j →
  ∃ o', ∀ room', (room ≤ room')%nat →
          loads room' j = Ok o' ∧ serializable room' o' = true.
Proof.
  revert room j.
  assert (Hseq : ∀ room l js,
            Forall (λ x, ∀ room j, dumps room x = Ok j →
                      ∃ o', ∀ room', (room ≤ room')%nat →
                        loads room' j = Ok o' ∧ serializable room' o' = true) l →
            rmap (dumps room) l = Ok js →
            ∃ os, ∀ room', (room ≤ room')%nat →
                    rmap (loads room') js = Ok os
                    ∧ forallb (serializable room') os = true).
  { intros room l js IH Hjs. apply rmap_Ok in Hjs.
    induction Hjs as [|x jx l js Hx _ IHl]; [by exists []|].
    apply Forall_cons in IH as [IHx IH].
    destruct (IHx _ _ Hx) as [ox Hox]. destruct (IHl IH) as [os Hos].
    exists (ox :: os). intros room' Hroom.
    destruct (Hox _ Hroom) as [Hlx Hsx]. destruct (Hos _ Hroom) as [Hl Hsl].
    cbn [rmap forallb]. by rewrite Hlx, Hl, Hsx, Hsl. }
  induction o as [ | b | z | r | s | l IH | l IH | items IH | cls s]
    using pyval_nested_ind; intros room j Hj.
  - injection Hj as <-. by exists PyNone.
  - injection Hj as <-. by exists (PyBool b).
  - cbn in Hj. destruct (int_repr_cases z) as [[Hok Hz] | [_ Hz]];
      rewrite Hz in Hj; [|done]. injection Hj as <-.
    exists (PyInt z). intros room' _. cbn [loads serializable].
    unfold int_ok in *. apply negb_true_iff in Hok. by rewrite Hok.
  - injection Hj as <-. by exists (PyFloat r).
  - injection Hj as <-. by exists (PyStr s).
  - destruct room as [|room]; [done|]. rewrite dumps_list_eq in Hj.
    destruct (rmap (dumps room) l) as [js| |] eqn:Hjs; [|done..].
    injection Hj as <-. destruct (Hseq _ _ _ IH Hjs) as [os Hos].
    exists (PyList os). intros [|room'] Hroom; [lia|].
    destruct (Hos room') as [Hl Hs]; [lia|].
    by rewrite loads_arr_eq, serializable_list_eq, Hl.
  - destruct room as [|room]; [done|]. rewrite dumps_tuple_eq in Hj.
    destruct (rmap (dumps room) l) as [js| |] eqn:Hjs; [|done..].
    injection Hj as <-. destruct (Hseq _ _ _ IH Hjs) as [os Hos].
    exists (PyList os). intros [|room'] Hroom; [lia|].
    destruct (Hos room') as [Hl Hs]; [lia|].
    by rewrite loads_arr_eq, serializable_list_eq, Hl.
  - destruct room as [|room]; [done|]. rewrite dumps_dict_eq in Hj.
    destruct (rmap (dump_item room) items) as [ms| |] eqn:Hms; [|done..].
    injection Hj as <-. apply rmap_Ok in Hms.
    assert (Hpairs : ∀ d,
              (∀ room', (room ≤ room')%nat →
                 forallb (λ kv, key_ok kv.1 && serializable room' kv.2) d = true) →
              ∃ d', ∀ room', (room ≤ room')%nat →
                      load_pairs room' ms d = Ok d'
                      ∧ forallb (λ kv, key_ok kv.1 && serializable room' kv.2) d'
                        = true).
    { induction Hms as [|[k v] [ks jv] l ms Hx _ IHl]; intros d Hd.
      { exists d. intros room' Hroom. split; [done|by apply Hd]. }
      apply Forall_cons in IH as [IHx IH]. cbn [snd] in IHx.
      unfold dump_item in Hx. cbn [fst snd] in Hx.
      destruct (encode_key k) as [ks'| |]; [|done..]. cbn [rbind] in Hx.
      destruct (dumps room v) as [jv'| |] eqn:Hv; [|done..].
      injection Hx as -> ->.
      destruct (IHx _ _ Hv) as [ov Hov].
      destruct (IHl IH (dict_set ks ov d)) as [d' Hd'].
      { intros room' Hroom. apply dict_set_fits; [|by apply Hd].
        by destruct (Hov _ Hroom). }
      exists d'. intros room' Hroom. cbn [load_pairs].
      destruct (Hov _ Hroom) as [Hlv _]. rewrite Hlv. cbn [rbind]. by apply Hd'. }
    destruct (Hpairs []) as [d' Hd']; [done|].
    exists (PyDict d'). intros [|room'] Hroom; [lia|].
    destruct (Hd' room') as [Hl Hs]; [lia|].
    by rewrite loads_obj_eq, serializable_dict_eq, Hl.
  - cbn in Hj. destruct s as [s|]; [|done]. destruct room as [|room]; [done|].
    injection Hj as <-. by exists (PyStr s).
Qed.

(** X16.  What a publish stored, a handler can send: the record stamped by
    a publish that returned is turned into its frame, without a json
    error, by every handler whose thread has more room for nesting than
    the producer had, as long as the id is within the digit limit. *)
Theorem published_record_reencodes w room room' t o (x : event) :
  reachable w → stamped room t o w = Some x →
  (room < room')%nat → (_next_id (_bus w) < int_str_limit)%Z →
  eid x = _next_id (_bus w)
  ∧ ∃ payload, event_frame room' x = Ok (DataFrame (eid x) payload).
Proof.
  intros Hreach Hx Hroom Hid. pose proof (reachable_inv _ Hreach) as Hinv.
  destruct (dumps_cases room o) as [[_ [j Hj]] | [_ [e He]]];
    [|by rewrite (stamped_raises _ _ _ _ _ He) in Hx].
  rewrite (stamped_ok _ _ _ _ _ Hinv Hj) in Hx. injection Hx as <-.
  split; [done|]. destruct (dumps_loads _ _ _ Hj) as [o' Ho'].
  destruct room' as [|room']; [lia|].
  destruct (Ho' (S room')) as [Hl _]; [lia|].
  destruct (Ho' room') as [_ Hs]; [lia|].
  unfold event_frame, event_payload. cbn [fst snd eid]. rewrite Hl. cbn [rbind].
  assert (Hser : serializable (S room')
                   (PyDict [(PyStr "type", PyStr t); (PyStr "data", o')]) = true).
  { rewrite serializable_dict_eq. cbn. by rewrite Hs. }
  apply dumps_serializable in Hser as [payload ->]. cbn [rbind].
  pose proof (inv_next _ Hinv) as Hpos.
  unfold int_repr. rewrite bool_decide_eq_false_2 by lia. cbn. eauto.
Qed.

End RoundTrip.

Section StartMore.

Implicit Types (s : Process) (busy : Z → bool) (ephemeral : option Z) (n : Z).

(** X11.  [start] takes the first port of the range whose bind succeeds,
    after one refused attempt on each port below it: it returns that port
    and records it in [_port], and it opens exactly one listener, one
    serving thread and one browser timer.  The listener is at the port
    asked for, except that for port 0 it is at the port the system chose,
    while the value returned, [_port] and the URL opened still say 0. *)
Theorem start_takes_first_free busy ephemeral s port_start port_end n a :
  _server s = None →
  (port_start ≤ n ≤ port_end)%Z →
  (∀ m, (port_start ≤ m < n)%Z →
     server_bind busy ephemeral s m = Raise OSError) →
  server_bind busy ephemeral s n = Ok a →
  start busy ephemeral port_start port_end s
  = (Ok (Some n),
     {| _server := Some (loopback a); _port := n;
        listeners := listeners s ++ [loopback a];
        threads := threads s ++ [loopback a];
        timers := timers s ++ [("http://127.0.0.1:" ++ pretty n)%string];
        bind_log := bind_log s
                    ++ (loopback <$> seqZ port_start (n - port_start + 1)) |})
  ∧ (0 ≤ n ≤ 65535)%Z
  ∧ (n ≠ 0%Z → a = n)
  ∧ (n = 0%Z → ephemeral = Some a).
Proof.
  intros Hsrv Hn Hbelow Hbound. split_and!.
  - rewrite (start_unstarted _ _ _ _ _ Hsrv). unfold port_range.
    rewrite (seqZ_cut port_start _ n) by lia.
    rewrite (scan_first_bound busy ephemeral _ n a _ s);
      [|by apply Forall_seqZ; intros; apply Hbelow; lia|done].
    by rewrite seqZ_snoc by lia.
  - destruct (server_bind_cases busy ephemeral s n)
      as [(a' & _ & Hr & _) | [[Hr _] | [Hr _]]]; [lia|congruence..].
  - destruct (server_bind_cases busy ephemeral s n)
      as [(a' & _ & Hr & _) | [[Hr _] | [Hr _]]]; [lia|congruence..].
  - destruct (server_bind_cases busy ephemeral s n)
      as [(a' & Ha' & _ & Heq) | [[Hr _] | [Hr _]]]; [|congruence..].
    intros Hnz. rewrite Hbound in Ha'. injection Ha' as <-. by apply Heq.
  - intros ->. vm_compute in Hbound.
    destruct ephemeral as [e|]; congruence.
Qed.

(** X12.  How an unstarted [start] ends is decided by the first port of
    the range whose bind is not refused with OSError.  It returns None
    exactly when there is none (every bind of the range is refused, an
    empty range included); it returns a port exactly when that first
    answer is a successful bind, and then that port; and it raises
    OverflowError exactly when that first port lies outside 0..65535.
    It does nothing else. *)
Theorem start_outcomes busy ephemeral s port_start port_end :
  _server s = None →
  let r := (start busy ephemeral port_start port_end s).1 in
  let refused_below n :=
    ∀ m, (port_start ≤ m < n)%Z → server_bind busy ephemeral s m = Raise OSError in
  (r = Ok None
   ↔ ∀ m, (port_start ≤ m ≤ port_end)%Z →
       server_bind busy ephemeral s m = Raise OSError)
  ∧ (∀ n, r = Ok (Some n)
          ↔ (port_start ≤ n ≤ port_end)%Z ∧ refused_below n
            ∧ ∃ a, server_bind busy ephemeral s n = Ok a)
  ∧ (r = Raise OverflowError
     ↔ ∃ n, (port_start ≤ n ≤ port_end)%Z ∧ refused_below n
            ∧ ¬ (0 ≤ n ≤ 65535)%Z)
  ∧ (r = Ok None ∨ r = Raise OverflowError ∨ ∃ n, r = Ok (Some n)).
Proof.
  intros Hsrv r refused_below. unfold r.
  assert (Hfirst : ∀ n n' res res',
            (port_start ≤ n ≤ port_end)%Z → refused_below n →
            server_bind busy ephemeral s n = res → res ≠ Raise OSError →
            (port_start ≤ n' ≤ port_end)%Z → refused_below n' →
            server_bind busy ephemeral s n' = res' → res' ≠ Raise OSError →
            n = n').
  { intros n n' res res' Hn Hb Hres Hne Hn' Hb' Hres' Hne'.
    destruct (Z.lt_trichotomy n n') as [Hlt | [Heq | Hgt]]; [|done|].
    - destruct Hne. rewrite <- Hres. apply Hb'. lia.
    - destruct Hne'. rewrite <- Hres'. apply Hb. lia. }
  destruct (start_by_first_answer busy ephemeral port_start port_end s Hsrv)
    as [[Hall ->] | (n0 & Hn0 & Hb0 & [(a0 & Ha0 & ->) | [Hr0 ->]])];
    cbn [fst]; split_and!.
  - done.
  - intros n. split; [done|]. intros (Hn & _ & a & Ha).
    rewrite Hall in Ha by done. discriminate.
  - split; [done|]. intros (n & Hn & _ & Hout).
    destruct (server_bind_cases busy ephemeral s n)
      as [(a & _ & Hr & _) | [[_ Hr] | [Hr _]]]; [done..|].
    rewrite Hall in Hr by done. discriminate.
  - by left.
  - split; [done|]. intros Hall. rewrite Hall in Ha0 by done. discriminate.
  - intros n. split.
    + intros [= <-]. eauto.
    + intros (Hn & Hb & a & Ha). do 2 f_equal.
      by apply (Hfirst n0 n (Ok a0) (Ok a)).
  - split; [done|]. intros (n & Hn & Hb & Hout).
    destruct (server_bind_cases busy ephemeral s n)
      as [(a & _ & Hr & _) | [[_ Hr] | [Hr _]]]; [done..|].
    assert (n0 = n) as ->
      by by apply (Hfirst n0 n (Ok a0) (Raise OverflowError)).
    congruence.
  - right. right. eauto.
  - split; [done|]. intros Hall. rewrite Hall in Hr0 by done. discriminate.
  - intros n. split; [done|]. intros (Hn & Hb & a & Ha).
    assert (n0 = n) as ->
      by by apply (Hfirst n0 n (Raise OverflowError) (Ok a)).
    congruence.
  - split; [|done]. intros _. exists n0. split; [done|]. split; [done|].
    destruct (server_bind_cases busy ephemeral s n0)
      as [(a & Ha & _) | [[Hr _] | [_ Hr]]]; [congruence..|done].
  - right. by left.
Qed.

End StartMore.

(** ** The sidecar session *)

Section SidecarSession.

Implicit Types (s : Service).

Lemma one_session_cold : one_session cold.
Proof.
  split; [done|]. intros i st Hi. unfold cold in Hi. cbn [browsers] in Hi.
  by rewrite lookup_nil in Hi.
Qed.

Lemma one_session_ensure step1 step2 s :
  one_session s → one_session (_ensure_logged_in step1 step2 None s).2.
Proof.
  intros Hinv. unfold _ensure_logged_in.
  destruct (bot s) as [b|] eqn:Hb; [exact Hinv|].
  destruct Hinv as [Hbot Hrest].
  assert (Hclosed : ∀ i st, browsers s !! i = Some st → st = Closed).
  { intros i st Hi. apply (Hrest i st Hi). by rewrite Hb. }
  destruct step1, step2; cbn.
  - split; cbn.
    + intros b [= <-]. rewrite list_lookup_insert_eq; [done|].
      rewrite length_app. cbn. lia.
    + intros i st Hi Hne. rewrite list_lookup_insert_ne in Hi by congruence.
      apply lookup_app_Some in Hi as [Hi | [Hlen Hi]]; [by eapply Hclosed|].
      destruct (i - length (browsers s)) eqn:Hsub; [|done].
      exfalso. apply Hne. f_equal. lia.
  - split; cbn; [done|]. intros i st Hi _.
    destruct (decide (i = length (browsers s))) as [->|Hne].
    + rewrite list_lookup_insert_eq in Hi; [congruence|]. rewrite length_app. cbn. lia.
    + rewrite list_lookup_insert_ne in Hi by done.
      apply lookup_app_Some in Hi as [Hi | [Hlen Hi]]; [by eapply Hclosed|].
      destruct (i - length (browsers s)) eqn:Hsub; [|done]. lia.
  - split; cbn; [done|]. intros i st Hi _.
    destruct (decide (i = length (browsers s))) as [->|Hne].
    + rewrite list_lookup_insert_eq in Hi; [congruence|]. rewrite length_app. cbn. lia.
    + rewrite list_lookup_insert_ne in Hi by done.
      apply lookup_app_Some in Hi as [Hi | [Hlen Hi]]; [by eapply Hclosed|].
      destruct (i - length (browsers s)) eqn:Hsub; [|done]. lia.
  - split; cbn; [done|]. intros i st Hi _.
    destruct (decide (i = length (browsers s))) as [->|Hne].
    + rewrite list_lookup_insert_eq in Hi; [congruence|]. rewrite length_app. cbn. lia.
    + rewrite list_lookup_insert_ne in Hi by done.
      apply lookup_app_Some in Hi as [Hi | [Hlen Hi]]; [by eapply Hclosed|].
      destruct (i - length (browsers s)) eqn:Hsub; [|done]. lia.
Qed.

Lemma one_session_shutdown s :
  one_session s → one_session (_shutdown_bot None s).2.
Proof.
  intros Hinv. unfold _shutdown_bot.
  destruct (bot s) as [b|] eqn:Hb; [|exact Hinv].
  destruct Hinv as [Hbot Hrest]. split; cbn; [done|].
  intros i st Hi _. destruct (decide (i = b)) as [->|Hne].
  - apply list_lookup_insert_Some in Hi as [[_ [? _]] | [? _]]; done.
  - rewrite list_lookup_insert_ne in Hi by done. apply (Hrest i st Hi).
    rewrite Hb. congruence.
Qed.

Lemma one_session_exec r s :
  closes_cleanly r = true → one_session s → one_session (api_exec r s).
Proof.
  destruct r as [step1 step2 [e|] | [e|]]; cbn [closes_cleanly api_exec];
    intros Hquiet Hinv; try discriminate Hquiet.
  - unfold connect.
    pose proof (one_session_ensure step1 step2 s Hinv) as Hinv'.
    by destruct (_ensure_logged_in step1 step2 None s) as [[b|[]] s'].
  - by apply one_session_shutdown.
Qed.

(** X13.  As long as the library closes browsers without raising, the
    service holds at most one open browser, the logged-in one that [bot]
    names; a failed login or a disconnect leaves none behind, and
    [/health] says logged in only when such a session exists. *)
Theorem session_never_leaks (rs : list api) :
  Forall (λ r, closes_cleanly r = true) rs →
  let s := api_run rs cold in
  one_session s
  ∧ (health s = true ↔ ∃ b, bot s = Some b ∧ browsers s !! b = Some LoggedIn).
Proof.
  intros Hrs s.
  assert (Hinv : one_session s).
  { unfold s, api_run. generalize cold one_session_cold.
    induction Hrs as [|r rs Hr _ IH]; intros s0 H0; [done|].
    cbn [foldl]. apply IH. by apply one_session_exec. }
  split; [done|]. unfold health. destruct (bot s) as [b|] eqn:Hb.
  - split; [|done]. intros _. exists b. split; [done|]. apply Hinv. done.
  - split; [done|]. by intros (b & [=] & _).
Qed.

(** [_shutdown_bot] cannot fail: whether or not the browser closes
    without raising, it returns, the service holds no bot afterwards, and
    shutting down again changes nothing. *)
Lemma shutdown_always_clears (closing closing' : option sexn) s :
  let s' := (_shutdown_bot closing s).2 in
  (_shutdown_bot closing s).1 = Returns tt
  ∧ bot s' = None
  ∧ health s' = false
  ∧ disconnect closing' s' = (Returns true, s').
Proof.
  unfold disconnect, _shutdown_bot, health.
  destruct (bot s) as [b|] eqn:Hb; cbn; [done|]. by rewrite Hb.
Qed.

(** X14.  A login that fails is reported as 503 with the reason, and undone:
    the browser that was launched for it is closed and no bot is kept, so
    the next connect starts from scratch. *)
Theorem connect_reports_login_failure (step1 step2 : bool) s :
  bot s = None → step1 && step2 = false →
  connect step1 step2 None s
  = (Raises (HTTPException 503 (if step1 then needs_totp else login_failed)),
     {| bot := None; browsers := browsers s ++ [Closed] |}).
Proof.
  intros Hb Hfail. unfold connect, _ensure_logged_in. rewrite Hb.
  assert (Hins : ∀ st, <[length (browsers s) := st]> (browsers s ++ [Launched])
                       = browsers s ++ [st]).
  { intros st. rewrite insert_app_r_alt by lia. by rewrite Nat.sub_diag. }
  destruct step1, step2; try done; cbn; by rewrite Hins.
Qed.

(** X15.  If [close_browser] raises while a failed login is being undone,
    [connect] fails with that exception in place of the login failure (as
    a 503 only when it is a RuntimeError), and the bot that never logged in
    stays in place: [/health] reports logged in, and every later
    [_ensure_logged_in] returns that bot without logging in. *)
Theorem failed_cleanup_keeps_stale_bot (step1 step2 : bool) (e : sexn) s :
  bot s = None → step1 && step2 = false →
  let b := length (browsers s) in
  let s' := {| bot := Some b; browsers := browsers s ++ [Launched] |} in
  connect step1 step2 (Some e) s
  = (Raises (match e with RuntimeError msg => HTTPException 503 msg | _ => e end), s')
  ∧ health s' = true
  ∧ browsers s' !! b = Some Launched
  ∧ ∀ step1' step2' closing,
      _ensure_logged_in step1' step2' closing s' = (Returns b, s').
Proof.
  intros Hb Hfail b s'. split_and!; try done.
  - unfold connect, _ensure_logged_in. rewrite Hb.
    by destruct step1, step2, e.
  - cbn. by rewrite lookup_app_r, Nat.sub_diag.
Qed.

End SidecarSession.

(** ** The further properties on concrete runs *)

Section ConcreteRuns.

Lemma mailboxes_stay_ordered_witness :
  ∃ que, queues (run joined_then_three initial) !! 0 = Some que
         ∧ StronglySorted Z.lt (ids (items que)).
Proof.
  destruct (queues (run joined_then_three initial) !! 0) as [que|] eqn:Hq.
  - exists que. split; [reflexivity|].
    exact (proj1 (mailboxes_stay_ordered _ 0 que
                    (reachable_by joined_then_three) Hq)).
  - vm_compute in Hq. discriminate Hq.
Defined.

Lemma mailbox_is_replay_then_live_witness :
  ∃ que, queues (run three_pushes (subscribe 1 (run three_pushes initial)).2) !! 0
         = Some que
         ∧ ids (items que) = [2; 3; 4; 5; 6]%Z.
Proof.
  destruct (mailbox_is_replay_then_live (run three_pushes initial) 1 0
              (subscribe 1 (run three_pushes initial)).2 three_pushes)
    as (que & Hque & Hits).
  - apply reachable_by.
  - vm_compute. reflexivity.
  - repeat constructor; discriminate.
  - vm_compute. lia.
  - exists que. split; [exact Hque|]. rewrite Hits. vm_compute. reflexivity.
Defined.

Lemma unsubscribed_receives_nothing_witness :
  ∃ que, queues (run joined_then_three initial) !! 0 = Some que
         ∧ queues (run three_pushes
                     (unsubscribe 0 (run joined_then_three initial)).2) !! 0
           = Some que.
Proof.
  destruct (queues (run joined_then_three initial) !! 0) as [que|] eqn:Hq.
  - exists que. split; [reflexivity|].
    apply (unsubscribed_receives_nothing _ 0 que three_pushes
             (reachable_by joined_then_three) Hq).
    repeat constructor; discriminate.
  - vm_compute in Hq. discriminate Hq.
Defined.

Lemma push_event_all_or_nothing_witness :
  serializable plenty tuple_keyed = false
  ∧ ∃ e, push_event plenty "status" tuple_keyed (run three_pushes initial)
         = (Raise e, run three_pushes initial).
Proof.
  destruct (push_event_all_or_nothing (run three_pushes initial) plenty "status"
              tuple_keyed (reachable_by three_pushes))
    as [[Hser _] | Hraise].
  - vm_compute in Hser. discriminate Hser.
  - exact Hraise.
Defined.

Lemma replay_outside_window_witness :
  ∃ q w', subscribe 0 (run (flood 203) initial) = (Ok q, w')
          ∧ items <$> queues w' !! q
            = Some (_history (_bus (run (flood 203) initial))).
Proof.
  apply (proj1 (replay_outside_window (run (flood 203) initial) 0
                  (reachable_by (flood 203)))).
  vm_compute. reflexivity.
Defined.

Lemma frames_in_id_order_witness :
  StronglySorted Z.lt
    (frame_ids (wfile (_serve_sse plenty 1 client_hangs_up
                         {| world := run three_pushes initial; wfile := [] |}).2)).
Proof.
  exact (proj1 (frames_in_id_order plenty (run three_pushes initial) 1 client_hangs_up
                  (reachable_by three_pushes))).
Defined.

Lemma connection_leaves_no_trace_witness :
  _bus (world (_serve_sse plenty 0 (alone two_then_gone)
                 {| world := run joined_then_three initial; wfile := [] |}).2)
  = _bus (run joined_then_three initial).
Proof.
  assert (Hrun : _serve_sse plenty 0 (alone two_then_gone)
                   {| world := run joined_then_three initial; wfile := [] |}
                 = (Exited (Ok tt),
                    (_serve_sse plenty 0 (alone two_then_gone)
                       {| world := run joined_then_three initial; wfile := [] |}).2))
    by (vm_compute; reflexivity).
  exact (proj1 (connection_leaves_no_trace _ _ _ _ _ _ _
                  (reachable_by joined_then_three) Hrun)).
Defined.

Lemma start_takes_first_free_witness :
  (start two_busy None 5111 5130 unstarted).1 = Ok (Some 5113%Z).
Proof.
  destruct (start_takes_first_free two_busy None unstarted 5111 5130 5113 5113)
    as [-> _].
  - reflexivity.
  - lia.
  - intros m Hm. unfold server_bind, port_taken, two_busy.
    rewrite (bool_decide_eq_true_2 (0 ≤ m ≤ 65535)%Z) by lia.
    rewrite (bool_decide_eq_false_2 (m = 0%Z)) by lia.
    rewrite (bool_decide_eq_true_2 (m = 5111 ∨ m = 5112)%Z) by lia. reflexivity.
  - vm_compute. reflexivity.
  - reflexivity.
Defined.

Lemma start_outcomes_witness :
  (start all_busy None 65530 65540 unstarted).1 = Raise OverflowError.
Proof.
  apply (start_outcomes all_busy None unstarted 65530 65540 eq_refl).
  exists 65536%Z. split_and!; [lia|lia| |lia].
  intros m Hm. unfold server_bind, port_taken, all_busy.
  rewrite (bool_decide_eq_true_2 (0 ≤ m ≤ 65535)%Z) by lia.
  rewrite (bool_decide_eq_false_2 (m = 0%Z)) by lia. reflexivity.
Defined.

Lemma published_record_reencodes_witness :
  ∃ payload,
    event_frame (S plenty) (1%Z, "status", JObj [("1", JStr "a"); ("1", JStr "b")])
    = Ok (DataFrame 1 payload).
Proof.
  destruct (published_record_reencodes initial plenty (S plenty) "status"
              twice_keyed (1%Z, "status", JObj [("1", JStr "a"); ("1", JStr "b")]))
    as [_ Hframe].
  - apply (reachable_by []).
  - vm_compute. reflexivity.
  - lia.
  - vm_compute. reflexivity.
  - exact Hframe.
Defined.

(** On the wire the two members are one: the handler parses the stored
    text into a dict before it encodes it again. *)
Lemma twice_keyed_on_the_wire :
  event_frame plenty (1%Z, "status", JObj [("1", JStr "a"); ("1", JStr "b")])
  = Ok (DataFrame 1 (JObj [("type", JStr "status");
                           ("data", JObj [("1", JStr "b")])])).
Proof. vm_compute. reflexivity. Qed.

Lemma resume_cursor_from_query_witness :
  parse_last_id (Some "17") "/events?last_event_id=42" = Ok 42%Z.
Proof.
  apply (resume_cursor_from_query (Some "17") "/events" 42 17);
    [reflexivity | vm_compute; lia | reflexivity].
Defined.

Lemma session_never_leaks_witness : one_session (api_run session_log cold).
Proof.
  apply (session_never_leaks session_log). repeat constructor.
Defined.

Lemma connect_reports_login_failure_witness :
  connect false true None cold
  = (Raises (HTTPException 503 login_failed),
     {| bot := None; browsers := [Closed] |}).
Proof. apply (connect_reports_login_failure false true cold); reflexivity. Defined.

Lemma failed_cleanup_keeps_stale_bot_witness :
  connect true false (Some BrowserError) cold
  = (Raises BrowserError, {| bot := Some 0; browsers := [Launched] |}).
Proof.
  apply (failed_cleanup_keeps_stale_bot true false BrowserError cold); reflexivity.
Defined.

End ConcreteRuns.
